(** * pISO: the menu controller of piso.cpp

    A shallow embedding of [src/pISO.old/src/piso.cpp]: the drive list, the
    menu item list with its selection cursor, the LVM backend it talks to and
    the frame compositor.  Every member function of [pISO] becomes a
    computation in a small state-and-failure monad [M] over a [Machine]:
    the [pISO] object, the volumes of the storage backend, and the trace of
    everything the object did to its collaborators (log lines, LVM and shell
    commands, calls of the items' virtual methods). *)

From stdpp Require Import base numbers list strings pretty.
From Stdlib Require Import Ascii QArith.

Close Scope Q_scope.
Local Open Scope string_scope.
Local Open Scope list_scope.
Local Open Scope nat_scope.

(** ** Data *)

(** [DriveFormat], as [add_drive] switches on it. *)
Inductive DriveFormat := WINDOWS | LINUX | MAC | UNIVERSAL.

Inductive MountState := UNMOUNTED | MOUNTED_INTERNAL | MOUNTED_EXTERNAL.

(** [GUIRenderable::RenderMode]. *)
Inductive RenderMode := NORMAL | FULLSCREEN.

#[global] Instance DriveFormat_eq_dec : EqDecision DriveFormat.
Proof. solve_decision. Defined.
#[global] Instance MountState_eq_dec : EqDecision MountState.
Proof. solve_decision. Defined.
#[global] Instance RenderMode_eq_dec : EqDecision RenderMode.
Proof. solve_decision. Defined.

(** Modelled from the spec: the class VirtualDrive (virtualdrive.hpp is not
    part of the sources).  A Drive has a [name], which is also the name of
    its logical volume, a [mount_state] among unmounted, mounted-internal
    and mounted-external, and as every menu item an implicit focus flag that
    only [on_focus] and [on_lose_focus] change. *)
Record VirtualDrive := mkVirtualDrive {
  m_name : string;
  m_mount_state : MountState;
  m_focus : bool
}.

(** Modelled from the spec: [VirtualDrive::operator==], which [std::find]
    uses in [remove_drive]: drives are looked up by name-equality. *)
Definition VirtualDrive_eqb (a b : VirtualDrive) : bool :=
  bool_decide (m_name a = m_name b).

(** The two singleton actions [m_newdrive] and [m_options]; of their state
    only the focus flag is visible to piso.cpp. *)
Record NewDrive := mkNewDrive { nd_focus : bool }.
Record Options := mkOptions { opt_focus : bool }.

(** A [GUIItem *] stored in [m_list_items].  [&drive] for the [i]-th element
    of [m_drives] is the address of slot [i] of the vector's buffer;
    [&m_newdrive] and [&m_options] are the addresses of the two members. *)
Inductive GUIItemPtr :=
  | PtrDrive (slot : nat)
  | PtrNewDrive
  | PtrOptions.

#[global] Instance GUIItemPtr_eq_dec : EqDecision GUIItemPtr.
Proof. solve_decision. Defined.

(** The object a [GUIItem *] points to, by dynamic type. *)
Inductive GUIItem :=
  | ItemDrive (d : VirtualDrive)
  | ItemNewDrive (n : NewDrive)
  | ItemOptions (o : Options).

Definition item_focus (it : GUIItem) : bool :=
  match it with
  | ItemDrive d => m_focus d
  | ItemNewDrive n => nd_focus n
  | ItemOptions o => opt_focus o
  end.

(** One record of the backend's report: the fields piso.cpp reads with
    [volume["..."].asString()]. *)
Record Volume := mkVolume {
  lv_name : string;
  lv_attr : string;
  lv_size : string;
  data_percent : string
}.

(** ** Bitmaps *)

Module Bitmap.

(** Modelled from the spec: the Bitmap primitive (bitmap.hpp is not part
    of the sources), a fixed-size raster with blit, expand and rotate.
    The raster is given by its dimensions and the pixel at each column
    [x] and row [y]; pixels outside the dimensions are not part of it. *)
Record t := mk {
  width : nat;
  height : nat;
  pixel : nat → nat → bool
}.

(** [Bitmap bitmap;] *)
Definition empty : t := mk 0 0 (λ _ _, false).

(** [Bitmap{w, h}]: a blank raster. *)
Definition create (w h : nat) : t := mk w h (λ _ _, false).

Definition inside (b : t) (x y : nat) : bool :=
  bool_decide (x < width b) && bool_decide (y < height b).

(** The pixel of [b] at [(x, y)], blank outside of it. *)
Definition get (b : t) (x y : nat) : bool :=
  if inside b x y then pixel b x y else false.

Definition expand_height (b : t) (h : nat) : t :=
  mk (width b) (height b + h) (get b).

Definition expand_width (b : t) (w : nat) : t :=
  mk (width b + w) (height b) (get b).

(** Does [src], placed at offset [(ox, oy)], cover the point [(x, y)]? *)
Definition covers (src : t) (ox oy : Z) (x y : nat) : bool :=
  bool_decide (ox ≤ Z.of_nat x < ox + Z.of_nat (width src))%Z
  && bool_decide (oy ≤ Z.of_nat y < oy + Z.of_nat (height src))%Z.

(** [dst.blit(src, {ox, oy}, extend)].  Without [extend] the destination
    keeps its dimensions and what falls outside of them is dropped; with
    [extend] it first grows to hold the whole of [src]. *)
Definition blit (dst src : t) (ox oy : Z) (extend : bool) : t :=
  let w := if extend
           then Nat.max (width dst) (Z.to_nat (ox + Z.of_nat (width src)))
           else width dst in
  let h := if extend
           then Nat.max (height dst) (Z.to_nat (oy + Z.of_nat (height src)))
           else height dst in
  mk w h (λ x y,
    if covers src ox oy x y
    then pixel src (Z.to_nat (Z.of_nat x - ox)) (Z.to_nat (Z.of_nat y - oy))
    else get dst x y).

(** [for (auto &pixel : b[0]) pixel = 1;] sets the first row. *)
Definition fill_first_row (b : t) : t :=
  mk (width b) (height b) (λ x y, if bool_decide (y = 0) then true else pixel b x y).

(** [b.rotate(Bitmap::Direction::Left)]: a quarter turn counter-clockwise;
    the dimensions are exchanged. *)
Definition rotate_left (b : t) : t :=
  mk (height b) (width b) (λ x y, pixel b (width b - 1 - y) x).

End Bitmap.

(** A [float]: a finite one is represented by the rational it stands for;
    beside these there are the two infinities and the NaNs. *)
Inductive float :=
  | Finite (q : Q)
  | Infinity (negative : bool)
  | NaN.

(** How a call of [std::stof] ends: with the value, or with one of the two
    exceptions it throws, [std::invalid_argument] when the text starts with
    no number and [std::out_of_range] when the number is outside the range
    of [float]. *)
Inductive stof_result :=
  | Parsed (f : float)
  | InvalidArgument
  | OutOfRange.

(** ** What lies outside piso.cpp *)

(** The constants of config.hpp and display.hpp and the helpers of the
    other translation units, none of which is part of the sources, are the
    parameters of the development. *)
Class Platform := {
  VOLUME_GROUP_NAME : string;
  THINPOOL_NAME : string;
  MENU_LEFT_SPACE : nat;
  SIDEBAR_SPACE : nat;
  Display_width : nat;
  Display_height : nat;
  (** [config_getenv(key)] *)
  config_getenv : string → string;
  (** the standard output [run_command] captures for a command line, given
      by the arguments it was called with *)
  command_output : list string → string;
  (** [item->render()], dispatched on the dynamic type of the item *)
  GUIItem_render : GUIItem → Bitmap.t * RenderMode;
  (** [render_text(text)] of font.hpp *)
  render_text : string → Bitmap.t;
  (** the mount state the constructor [VirtualDrive(name)] gives the new
      drive: virtualdrive.cpp is not part of the sources, and piso.cpp does
      not depend on which state it is *)
  constructed_mount_state : string → MountState;
  (** [std::stof] *)
  stof : string → stof_result;
  (** the C++ expression [100 - f] for a finite float [f], converted to
      [int] *)
  percent_free_of : Q → Z
}.

(** Modelled from the spec: the constructor [VirtualDrive(name)]
    (virtualdrive.hpp is not part of the sources).  The drive has the name
    it is given and the mount state the class gives a new drive, which is
    left open; no menu item has the focus before [on_focus] gives it. *)
Definition VirtualDrive_new `{!Platform} (name : string) : VirtualDrive :=
  mkVirtualDrive name (constructed_mount_state name) false.

(** ** The machine *)

Inductive Event :=
  | EvLog (msg : list string)
  | EvLvmRun (args : list string)
  | EvLvsReport (args : list string)
  | EvRunCommand (args : list string)
  | EvMountExternal (name : string)
  | EvOnLoseFocus (p : GUIItemPtr)
  | EvOnFocus (p : GUIItemPtr)
  | EvRender (p : GUIItemPtr).

#[global] Instance Event_eq_dec : EqDecision Event.
Proof. solve_decision. Defined.

(** The data members of [pISO] (and of its base [GUIListItem]).
    [m_selection] is an iterator into [m_list_items], kept as its distance
    from [begin()]; [end()] is the length of the list. *)
Record pISO := mkpISO {
  m_drives : list VirtualDrive;
  m_newdrive : NewDrive;
  m_options : Options;
  m_list_items : list GUIItemPtr;
  m_selection : nat
}.

Record Machine := mkMachine {
  self : pISO;
  volumes : list Volume;
  trace : list Event
}.

(** How a call ends: it returns, the process is stopped by [piso_error], a
    standard-library exception escapes, or the behaviour is undefined (a
    pointer into [m_drives] that no longer points to an element). *)
Inductive outcome (A : Type) :=
  | Returned (a : A)
  | Fatal (msg : list string)
  | Threw (what : string)
  | Undefined.
Arguments Returned {A} a.
Arguments Fatal {A} msg.
Arguments Threw {A} what.
Arguments Undefined {A}.

Definition M (A : Type) : Type := Machine → outcome (A * Machine).

#[global] Instance M_ret : MRet M := λ A a m, Returned (a, m).

#[global] Instance M_bind : MBind M := λ A B k c m,
  match c m with
  | Returned (a, m') => k a m'
  | Fatal msg => Fatal msg
  | Threw what => Threw what
  | Undefined => Undefined
  end.

Definition get_self : M pISO := λ m, Returned (self m, m).
Definition put_self (o : pISO) : M unit := λ m,
  Returned (tt, mkMachine o (volumes m) (trace m)).
Definition emit (e : Event) : M unit := λ m,
  Returned (tt, mkMachine (self m) (volumes m) (trace m ++ [e])).
Definition undefined {A} : M A := λ _, Undefined.

(** [for (... : l) body] *)
Fixpoint for_each {A} (l : list A) (body : A → M unit) : M unit :=
  match l with
  | [] => mret tt
  | x :: l' => body x;; for_each l' body
  end.

Definition set_drives (ds : list VirtualDrive) (o : pISO) : pISO :=
  mkpISO ds (m_newdrive o) (m_options o) (m_list_items o) (m_selection o).
Definition set_newdrive (n : NewDrive) (o : pISO) : pISO :=
  mkpISO (m_drives o) n (m_options o) (m_list_items o) (m_selection o).
Definition set_options (x : Options) (o : pISO) : pISO :=
  mkpISO (m_drives o) (m_newdrive o) x (m_list_items o) (m_selection o).
Definition set_list_items (l : list GUIItemPtr) (o : pISO) : pISO :=
  mkpISO (m_drives o) (m_newdrive o) (m_options o) l (m_selection o).
Definition set_selection (i : nat) (o : pISO) : pISO :=
  mkpISO (m_drives o) (m_newdrive o) (m_options o) (m_list_items o) i.

Definition modify (f : pISO → pISO) : M unit :=
  o ← get_self; put_self (f o).

Definition get_volumes : M (list Volume) := λ m, Returned (volumes m, m).
Definition put_volumes (vs : list Volume) : M unit := λ m,
  Returned (tt, mkMachine (self m) vs (trace m)).
Definition throw {A} (what : string) : M A := λ _, Threw what.

(** ** The storage backend *)

(** Modelled from the spec: the volume the backend reports for a Drive made
    by [create_volume(name, size, pool)].  It is a thin, that is virtual,
    volume: its attribute string starts with the letter V, which is what
    flags a volume as virtual in the report. *)
Definition thin_volume (name size : string) : Volume :=
  mkVolume name "Vwi-a-tz--" (size +:+ "B") "0.00".

(** Modelled from the spec: what an LVM command the backend carries out
    does to its volumes (lvmwrapper.hpp is not part of the sources).  The
    command is given by the arguments [lvm_run] is called with in piso.cpp:
    [create_volume] adds the record of a new virtual volume to the report,
    [delete_volume] takes the records of that name out of it.  Where in the
    report the new record stands is not fixed by the spec; no property
    below depends on it. *)
Definition lvm_effect (args : list string) (vols : list Volume) : list Volume :=
  match args with
  | [cmd; size; _; _; _; _; _; name] =>
      if decide (cmd = "lvcreate -V ") then vols ++ [thin_volume name size]
      else vols
  | [cmd; _; _; name; _] =>
      if decide (cmd = "lvremove ")
      then filter (λ v, lv_name v ≠ name) vols
      else vols
  | _ => vols
  end.

(** Modelled from the spec: [lvm_run(args...)] on the runs in which the
    backend carries the command out.  A command the backend fails on is
    fatal and ends the run there; which requests the backend carries out is
    not decided here but stated where a property depends on it
    ([carried_out]). *)
Definition lvm_run (args : list string) : M unit :=
  emit (EvLvmRun args);;
  vols ← get_volumes;
  put_volumes (lvm_effect args vols).

(** [lvm_lvs_report()]: the report of all volumes. *)
Definition lvm_lvs_report : M (list Volume) :=
  emit (EvLvsReport []);;
  get_volumes.

(** [piso_log(args...)] *)
Definition piso_log (msg : list string) : M unit := emit (EvLog msg).

(** Modelled from the spec: [piso_error(args...)] is fatal, it ends the
    control process. *)
Definition piso_error {A} (msg : list string) : M A := λ _, Fatal msg.

(** Modelled from the spec: [lvm_lvs_report(options, name)], the report of
    the one volume [name].  Asking for a volume the backend does not have is
    a backend failure, and any backend failure is fatal. *)
Definition lvm_lvs_report_of (options name : string) : M Volume :=
  emit (EvLvsReport [options; name]);;
  vols ← get_volumes;
  match list_find (λ v, lv_name v = name) vols with
  | Some (_, v) => mret v
  | None => piso_error ["lvs: volume not found: "; name]
  end.

(** ** Strings *)

(** the line feed, and the two characters backslash, line feed that
    continue a shell command on the next line *)
Definition newline : ascii := "010"%char.
Definition backslash_newline : string := String "092"%char (String newline "").

(** [std::getline(stream, line, '\n')] on a fresh stream: the characters
    before the first line feed. *)
Fixpoint getline (s : string) : string :=
  match s with
  | EmptyString => EmptyString
  | String c s' => if decide (c = newline) then EmptyString else String c (getline s')
  end.

(** [s[0] == c]; for the empty string [s[0]] is the terminating zero. *)
Definition first_char_is (c : ascii) (s : string) : bool :=
  match s with
  | EmptyString => bool_decide (c = "000"%char)
  | String a _ => bool_decide (a = c)
  end.

(** [std::to_string] of an unsigned and of a signed number. *)
Definition to_string (n : N) : string := pretty n.
Definition to_string_int (z : Z) : string := pretty z.

Definition is_space (c : ascii) : bool :=
  bool_decide (c ∈ [" "; "009"; "010"; "011"; "012"; "013"]%char).

Definition digit_value (c : ascii) : option N :=
  let n := N_of_ascii c in
  if (48 <=? n)%N && (n <=? 57)%N then Some (n - 48)%N else None.

Fixpoint skip_spaces (s : string) : string :=
  match s with
  | String c s' => if is_space c then skip_spaces s' else s
  | EmptyString => EmptyString
  end.

(** the value of the longest prefix of decimal digits, on top of [acc] *)
Fixpoint parse_digits (acc : N) (s : string) : N :=
  match s with
  | String c s' =>
      match digit_value c with
      | Some d => parse_digits (acc * 10 + d) s'
      | None => acc
      end
  | EmptyString => acc
  end.

Definition starts_with_digit (s : string) : bool :=
  match s with
  | String c _ => bool_decide (is_Some (digit_value c))
  | EmptyString => false
  end.

(** [std::stoull(s)]: white space, an optional sign, then decimal digits;
    what follows the digits is ignored.  No digits: [std::invalid_argument];
    a value that does not fit 64 bits: [std::out_of_range]; a minus sign
    negates modulo 2^64. *)
Definition stoull (s : string) : M N :=
  let s1 := skip_spaces s in
  let '(negative, s2) :=
    match s1 with
    | String c r =>
        if decide (c = "-"%char) then (true, r)
        else if decide (c = "+"%char) then (false, r)
        else (false, s1)
    | EmptyString => (false, s1)
    end in
  if starts_with_digit s2 then
    let v := parse_digits 0 s2 in
    if (v <? 2 ^ 64)%N
    then mret (if negative then (2 ^ 64 - v) `mod` 2 ^ 64 else v)%N
    else throw "out_of_range"
  else throw "invalid_argument".

(** ** Menu items behind their pointers *)

(** [*p]: the object the pointer refers to, if it still points to one. *)
Definition deref (p : GUIItemPtr) (o : pISO) : option GUIItem :=
  match p with
  | PtrDrive i => ItemDrive <$> m_drives o !! i
  | PtrNewDrive => Some (ItemNewDrive (m_newdrive o))
  | PtrOptions => Some (ItemOptions (m_options o))
  end.

Definition VirtualDrive_set_focus (b : bool) (d : VirtualDrive) : VirtualDrive :=
  mkVirtualDrive (m_name d) (m_mount_state d) b.

Definition set_focus (p : GUIItemPtr) (b : bool) (o : pISO) : option pISO :=
  match p with
  | PtrDrive i =>
      match m_drives o !! i with
      | Some d => Some (set_drives (<[i := VirtualDrive_set_focus b d]> (m_drives o)) o)
      | None => None
      end
  | PtrNewDrive => Some (set_newdrive (mkNewDrive b) o)
  | PtrOptions => Some (set_options (mkOptions b) o)
  end.

Definition call_set_focus (p : GUIItemPtr) (b : bool) : M unit :=
  o ← get_self;
  match set_focus p b o with
  | Some o' => put_self o'
  | None => undefined
  end.

(** Modelled from the spec: [item->on_lose_focus()] and [item->on_focus()],
    virtual methods of the item classes: they clear and set the focus flag
    of the item. *)
Definition on_lose_focus (p : GUIItemPtr) : M unit :=
  emit (EvOnLoseFocus p);; call_set_focus p false.

Definition on_focus (p : GUIItemPtr) : M unit :=
  emit (EvOnFocus p);; call_set_focus p true.

(** Modelled from the spec: [GUIListItem::has_selection()]: the cursor
    refers to an element of the list, it is not [end()]. *)
Definition has_selection (o : pISO) : bool :=
  bool_decide (m_selection o < length (m_list_items o)).

Definition VirtualDrive_set_mount_state (s : MountState) (d : VirtualDrive) : VirtualDrive :=
  mkVirtualDrive (m_name d) s (m_focus d).

(** Modelled from the spec: [m_drives.back().mount_external()] mounts the
    drive externally: its mount state becomes mounted-external. *)
Definition mount_external_back : M unit :=
  o ← get_self;
  match last (m_drives o) with
  | Some d =>
      emit (EvMountExternal (m_name d));;
      modify (set_drives (<[pred (length (m_drives o)) :=
                              VirtualDrive_set_mount_state MOUNTED_EXTERNAL d]> (m_drives o)))
  | None => undefined
  end.

(** [m_drives.back()] *)
Definition drives_back : M VirtualDrive :=
  o ← get_self;
  match last (m_drives o) with
  | Some d => mret d
  | None => undefined
  end.

Definition push_back_item (p : GUIItemPtr) (o : pISO) : pISO :=
  set_list_items (m_list_items o ++ [p]) o.

Definition push_back_drive (d : VirtualDrive) (o : pISO) : pISO :=
  set_drives (m_drives o ++ [d]) o.

(** One turn of the loop of [render] either goes on with the canvas or
    returns from [render] altogether. *)
Inductive loop_step :=
  | Continue (bitmap : Bitmap.t)
  | Return (result : Bitmap.t * RenderMode).

(** ** The member functions of pISO *)

Section pISO.
Context `{!Platform}.

(** [void pISO::update_list_items()] *)
Definition update_list_items : M unit :=
  piso_log ["pISO: Updating menu items"];;
  modify (set_list_items []);;
  o ← get_self;
  for_each (seq 0 (length (m_drives o)))
    (λ slot, modify (push_back_item (PtrDrive slot)));;
  modify (push_back_item PtrNewDrive);;
  modify (push_back_item PtrOptions);;
  o ← get_self;
  for_each (m_list_items o) on_lose_focus;;
  modify (set_selection 0);;
  o ← get_self;
  if has_selection o then
    match m_list_items o !! m_selection o with
    | Some p => on_focus p
    | None => undefined
    end
  else mret tt.

(** [void pISO::rebuild_drives_from_volumes()] *)
Definition rebuild_drives_from_volumes : M unit :=
  piso_log ["Rebuilding VirtualDrives from lvm volumes"];;
  modify (set_drives []);;
  lvs ← lvm_lvs_report;
  for_each lvs (λ volume,
    if first_char_is "V" (lv_attr volume) then
      piso_log ["Found volume "; lv_name volume];;
      modify (push_back_drive (VirtualDrive_new (lv_name volume)))
    else mret tt);;
  update_list_items.

(** [run_command(args...)]: runs the command and returns its output. *)
Definition run_command (args : list string) : M string :=
  emit (EvRunCommand args);;
  mret (command_output args).

(** the partition-table type tag [add_drive] passes to parted *)
Definition partition_hint (format : DriveFormat) : string :=
  match format with
  | MAC | UNIVERSAL | WINDOWS => "ntfs"
  | LINUX => "ext3"
  end.

Definition parted_command (name hint : string) : list string :=
  ["parted --script /dev/"; VOLUME_GROUP_NAME; "/"; name;
   " " +:+ backslash_newline +:+ " mklabel msdos " +:+ backslash_newline
     +:+ " mkpart primary " +:+ hint +:+ " 0% 100%"].

(** the command that formats [first_partition] *)
Definition mkfs_command (format : DriveFormat) (first_partition : string) : list string :=
  match format with
  | WINDOWS => ["mkfs.ntfs -f "; first_partition]
  | LINUX => ["mkfs.ext3 "; first_partition]
  | MAC | UNIVERSAL => ["mkfs.exfat "; first_partition]
  end.

(** [const VirtualDrive &pISO::add_drive(uint64_t size, DriveFormat format)].
    [m_drives.size() + 1] is computed in [size_t]; a vector never holds
    2^64 - 1 elements, so the sum does not wrap. *)
Definition add_drive (size : N) (format : DriveFormat) : M VirtualDrive :=
  piso_log ["Adding new drive with size="; to_string size];;
  o ← get_self;
  let name := "Drive" +:+ to_string (N.of_nat (length (m_drives o)) + 1) in
  lvm_run ["lvcreate -V "; to_string size; "B -T "; VOLUME_GROUP_NAME; "/";
           THINPOOL_NAME; " -n "; name];;
  modify (push_back_drive (VirtualDrive_new name));;
  run_command (parted_command name (partition_hint format));;
  let scripts_path := config_getenv "PISO_SCRIPTS_PATH" in
  let vdrive_script := scripts_path +:+ "/vdrive.sh" in
  loopback_res ← run_command ["sh "; vdrive_script; " mount-internal-basic "; name];
  let first_partition := getline loopback_res in
  run_command (mkfs_command format first_partition);;
  mount_external_back;;
  update_list_items;;
  drives_back.

(** [void pISO::remove_drive(const VirtualDrive &drive)] *)
Definition remove_drive (drive : VirtualDrive) : M unit :=
  piso_log ["Removing drive "; m_name drive];;
  o ← get_self;
  match list_find (λ d, VirtualDrive_eqb d drive) (m_drives o) with
  | None => piso_log ["Warning: drive not found"]
  | Some (drive_iter, _) =>
      lvm_run ["lvremove "; VOLUME_GROUP_NAME; "/"; m_name drive; " -y"];;
      modify (λ o, set_drives (delete drive_iter (m_drives o)) o);;
      update_list_items
  end.

(** the loop of [percent_used] over the report *)
Fixpoint percent_used_loop (lvs : list Volume) : M float :=
  match lvs with
  | [] => piso_error ["pISO: unable to locate thinpool"]
  | volume :: rest =>
      if decide (lv_name volume = THINPOOL_NAME) then
        match stof (data_percent volume) with
        | Parsed f => mret f
        | InvalidArgument => throw "invalid_argument"
        | OutOfRange => throw "out_of_range"
        end
      else percent_used_loop rest
  end.

(** [float pISO::percent_used() const] *)
Definition percent_used : M float :=
  lvs ← lvm_lvs_report;
  percent_used_loop lvs.

(** [unsigned long long pISO::size() const] *)
Definition size : M N :=
  volume ← lvm_lvs_report_of "lv_size --units B" THINPOOL_NAME;
  let sizestr := lv_size volume in
  stoull sizestr.

(** the body of the loop of [render] below the early return: the item's
    bitmap is indented by the left margin and put under the canvas *)
Definition stack (bitmap drive_bitmap : Bitmap.t) : Bitmap.t :=
  let shifted := Bitmap.create (Bitmap.width drive_bitmap + MENU_LEFT_SPACE)
                               (Bitmap.height drive_bitmap) in
  let shifted := Bitmap.blit shifted drive_bitmap (Z.of_nat MENU_LEFT_SPACE) 0 false in
  let old_height := Bitmap.height bitmap in
  let bitmap := Bitmap.expand_height bitmap (Bitmap.height shifted) in
  let bitmap :=
    if decide (Bitmap.width bitmap < Bitmap.width shifted)
    then Bitmap.expand_width bitmap (Bitmap.width shifted - Bitmap.width bitmap)
    else bitmap in
  Bitmap.blit bitmap shifted 0 (Z.of_nat old_height) true.

(** the body of the loop of [render] for one item *)
Definition render_item (item : GUIItemPtr) (bitmap : Bitmap.t) : M loop_step :=
  o ← get_self;
  match deref item o with
  | None => undefined
  | Some it =>
      emit (EvRender item);;
      let drive_bitmap := GUIItem_render it in
      if decide (drive_bitmap.2 = FULLSCREEN) then mret (Return drive_bitmap)
      else mret (Continue (stack bitmap drive_bitmap.1))
  end.

Fixpoint render_loop (items : list GUIItemPtr) (bitmap : Bitmap.t) : M loop_step :=
  match items with
  | [] => mret (Continue bitmap)
  | item :: rest =>
      r ← render_item item bitmap;
      match r with
      | Return drive_bitmap => mret (Return drive_bitmap)
      | Continue bitmap' => render_loop rest bitmap'
      end
  end.

(** the sidebar of [render]: the text, a spacer and the border row, turned
    by a quarter *)
Definition render_sidebar (percent_free : Z) : Bitmap.t :=
  let sidebar_contents := to_string_int percent_free +:+ "% Free" in
  let sidebar := render_text sidebar_contents in
  let sidebar_with_border :=
    Bitmap.create (Bitmap.width sidebar) (Bitmap.height sidebar + SIDEBAR_SPACE) in
  let sidebar_with_border := Bitmap.fill_first_row sidebar_with_border in
  let sidebar_with_border :=
    Bitmap.blit sidebar_with_border sidebar 0 (Z.of_nat SIDEBAR_SPACE) false in
  Bitmap.rotate_left sidebar_with_border.

(** [std::pair<Bitmap, GUIRenderable::RenderMode> pISO::render() const] *)
Definition render : M (Bitmap.t * RenderMode) :=
  piso_log ["pISO::render()"];;
  o ← get_self;
  r ← render_loop (m_list_items o) Bitmap.empty;
  match r with
  | Return drive_bitmap => mret drive_bitmap
  | Continue bitmap =>
      let out := Bitmap.create Display_width Display_height in
      let out := Bitmap.blit out bitmap 0 0 false in
      used ← percent_used;
      match used with
      | Finite q =>
          let percent_free := percent_free_of q in
          let sidebar_with_border := render_sidebar percent_free in
          let out :=
            Bitmap.blit out sidebar_with_border
              (Z.of_nat (Bitmap.width out) - Z.of_nat (Bitmap.width sidebar_with_border)) 0
              false in
          mret (out, NORMAL)
      | Infinity _ | NaN =>
          (* the conversion of an infinity or a NaN to [int] is undefined *)
          undefined
      end
  end.

(** [pISO::pISO()]: the members start out empty and the drives are
    derived from the backend.  [init_usbgx] is not called by the constructor
    and [on_select], [on_next] and [on_prev] only log and forward to
    [GUIListItem], whose code is not part of the sources: they are left
    out. *)
Definition blank : pISO := mkpISO [] (mkNewDrive false) (mkOptions false) [] 0.

Definition boot (vols : list Volume) : Machine := mkMachine blank vols [].

Definition pISO_new : M unit := rebuild_drives_from_volumes.

End pISO.

(** ** Vocabulary of the properties *)

Definition unfocus : VirtualDrive → VirtualDrive := VirtualDrive_set_focus false.

(** the item sequence a rebuild produces for the drives at hand *)
Definition menu_items (o : pISO) : list GUIItemPtr :=
  (PtrDrive <$> seq 0 (length (m_drives o))) ++ [PtrNewDrive; PtrOptions].

Definition first_item (o : pISO) : GUIItemPtr :=
  match m_drives o with
  | [] => PtrNewDrive
  | _ :: _ => PtrDrive 0
  end.

(** every drive unfocused, then the first one focused *)
Definition focus_first (ds : list VirtualDrive) : list VirtualDrive :=
  match ds with
  | [] => []
  | d :: ds' => VirtualDrive_set_focus true d :: (unfocus <$> ds')
  end.

Definition rebuilt (o : pISO) : pISO :=
  mkpISO (focus_first (m_drives o))
         (mkNewDrive (bool_decide (m_drives o = [])))
         (mkOptions false)
         (menu_items o)
         0.

Definition update_events (o : pISO) : list Event :=
  EvLog ["pISO: Updating menu items"]
    :: (EvOnLoseFocus <$> menu_items o) ++ [EvOnFocus (first_item o)].


(** the names of the live drives, in the order of [m_drives] *)
Definition names (o : pISO) : list string := m_name <$> m_drives o.

(** the volumes of a report that [rebuild_drives_from_volumes] surfaces *)
Definition virtual_volumes (lvs : list Volume) : list Volume :=
  filter (λ v, first_char_is "V" (lv_attr v)) lvs.

Definition rebuild_events (lvs : list Volume) : list Event :=
  [EvLog ["Rebuilding VirtualDrives from lvm volumes"]; EvLvsReport []]
    ++ ((λ v, EvLog ["Found volume "; lv_name v]) <$> virtual_volumes lvs).

(** the calls that reach the storage backend or the shell *)
Definition is_backend_call (e : Event) : bool :=
  match e with
  | EvLvmRun _ | EvLvsReport _ | EvRunCommand _ | EvMountExternal _ => true
  | EvLog _ | EvOnLoseFocus _ | EvOnFocus _ | EvRender _ => false
  end.

Definition backend_calls (tr : list Event) : nat :=
  length (filter (λ e, is_backend_call e) tr).

(** the name [add_drive] gives to the next drive *)
Definition next_name (o : pISO) : string :=
  "Drive" +:+ to_string (N.of_nat (length (m_drives o)) + 1).

(** the names Drive1 .. Drive<n> *)
Definition drive_names (n : nat) : list string :=
  (λ i, "Drive" +:+ to_string (N.of_nat i + 1)) <$> seq 0 n.

Section Vocabulary.
Context `{!Platform}.

Definition lvcreate_args (size : N) (name : string) : list string :=
  ["lvcreate -V "; to_string size; "B -T "; VOLUME_GROUP_NAME; "/";
   THINPOOL_NAME; " -n "; name].

Definition lvremove_args (name : string) : list string :=
  ["lvremove "; VOLUME_GROUP_NAME; "/"; name; " -y"].

Definition mount_internal_args (name : string) : list string :=
  ["sh "; config_getenv "PISO_SCRIPTS_PATH" +:+ "/vdrive.sh";
   " mount-internal-basic "; name].

(** the device [add_drive] formats: the first line the mount script prints *)
Definition first_partition_of (name : string) : string :=
  getline (command_output (mount_internal_args name)).

(** what [add_drive] does before it rebuilds the list *)
Definition add_events (size : N) (format : DriveFormat) (name : string) : list Event :=
  [EvLog ["Adding new drive with size="; to_string size];
   EvLvmRun (lvcreate_args size name);
   EvRunCommand (parted_command name (partition_hint format));
   EvRunCommand (mount_internal_args name);
   EvRunCommand (mkfs_command format (first_partition_of name));
   EvMountExternal name].

(** the drives after [add_drive] has mounted the new one *)
Definition added (o : pISO) : pISO :=
  set_drives (m_drives o ++ [mkVirtualDrive (next_name o) MOUNTED_EXTERNAL false]) o.

(** the drives after [remove_drive] has erased slot [i] *)
Definition erased (i : nat) (o : pISO) : pISO :=
  set_drives (delete i (m_drives o)) o.

End Vocabulary.

(** the shape every rebuild leaves behind: the item list is the one of the
    drives at hand and the cursor is at its first element *)
Definition well_formed (o : pISO) : Prop :=
  m_list_items o = menu_items o ∧ m_selection o = 0.

Section Reachable.
Context `{!Platform}.

(** the machines the member functions of piso.cpp lead to, from the
    constructor on; the navigation handlers, which only forward to
    [GUIListItem], are not among them *)
Inductive reachable : Machine → Prop :=
  | reachable_new vols m :
      pISO_new (boot vols) = Returned (tt, m) → reachable m
  | reachable_rebuild m m' :
      reachable m → rebuild_drives_from_volumes m = Returned (tt, m') → reachable m'
  | reachable_add size format m d m' :
      reachable m → add_drive size format m = Returned (d, m') → reachable m'
  | reachable_remove drive m m' :
      reachable m → remove_drive drive m = Returned (tt, m') → reachable m'
  | reachable_percent_used m p m' :
      reachable m → percent_used m = Returned (p, m') → reachable m'
  | reachable_size m n m' :
      reachable m → size m = Returned (n, m') → reachable m'
  | reachable_render m frame m' :
      reachable m → render m = Returned (frame, m') → reachable m'.

End Reachable.

(** a [const] member function: it leaves the object and the backend as
    they are, whatever it adds to the trace *)
Definition constM {A} (c : M A) : Prop :=
  ∀ m a m', c m = Returned (a, m') → self m' = self m ∧ volumes m' = volumes m.

Section RenderVocabulary.
Context `{!Platform}.

(** the item behind [p] is there and does not ask for the whole frame *)
Definition reports_normal (o : pISO) (p : GUIItemPtr) : bool :=
  match deref p o with
  | Some it => bool_decide ((GUIItem_render it).2 ≠ FULLSCREEN)
  | None => false
  end.

(** the canvas the loop of [render] builds from items that all report
    the normal mode *)
Definition canvas (o : pISO) (items : list GUIItemPtr) (bitmap : Bitmap.t) : Bitmap.t :=
  foldl (λ bm p, match deref p o with
                 | Some it => stack bm (GUIItem_render it).1
                 | None => bm
                 end) bitmap items.

(** the record of the thin pool in a report: the first one of that name *)
Definition thinpool (lvs : list Volume) : option Volume :=
  snd <$> list_find (λ v, lv_name v = THINPOOL_NAME) lvs.


End RenderVocabulary.

Section Sequences.
Context `{!Platform}.

(** a run of [add_drive] calls, one for each requested size and format *)
Definition add_drives (requests : list (N * DriveFormat)) : M unit :=
  for_each requests (λ r, add_drive r.1 r.2;; mret tt).

End Sequences.

(** ** A concrete platform *)

(** A platform to run the member functions on: a 128 by 64 display, a mount
    script that prints two partitions, items that draw a 40 by 8 line, but
    for the new-drive action, which takes the whole frame while it has the
    focus. *)
Definition demo_render (it : GUIItem) : Bitmap.t * RenderMode :=
  match it with
  | ItemNewDrive n =>
      if nd_focus n then (Bitmap.create 100 50, FULLSCREEN)
      else (Bitmap.create 40 8, NORMAL)
  | _ => (Bitmap.create 40 8, NORMAL)
  end.

(** the digits after the decimal point: numerator and denominator *)
Fixpoint fraction_digits (num den : N) (s : string) : N * N :=
  match s with
  | String c s' =>
      match digit_value c with
      | Some d => fraction_digits (num * 10 + d) (den * 10) s'
      | None => (num, den)
      end
  | EmptyString => (num, den)
  end.

Fixpoint drop_digits (s : string) : string :=
  match s with
  | String c s' => if bool_decide (is_Some (digit_value c)) then drop_digits s' else s
  | EmptyString => EmptyString
  end.

(** [std::stof] on the texts of the examples: an unsigned decimal number
    with or without a fraction is its value, a text that starts with no
    number is invalid, and 1e40 is more than a [float] holds. *)
Definition demo_stof (s : string) : stof_result :=
  if decide (s = "1e40") then OutOfRange
  else if decide (s = "nan") then Parsed NaN
  else if decide (s = "inf") then Parsed (Infinity false)
  else if starts_with_digit s then
    let whole := parse_digits 0 s in
    match drop_digits s with
    | String "." r =>
        let '(num, den) := fraction_digits 0 1 r in
        Parsed (Finite (Qred (Z.of_N (whole * den + num) # N.succ_pos (N.pred den))))
    | _ => Parsed (Finite (Z.of_N whole # 1))
    end
  else InvalidArgument.

Definition demo_platform : Platform := {|
  VOLUME_GROUP_NAME := "VolGroup00";
  THINPOOL_NAME := "thinpool";
  MENU_LEFT_SPACE := 2;
  SIDEBAR_SPACE := 1;
  Display_width := 128;
  Display_height := 64;
  config_getenv := λ _, "/opt/piso";
  command_output := λ _, "/dev/mapper/loop0p1" +:+ String newline "/dev/mapper/loop0p2";
  GUIItem_render := demo_render;
  render_text := λ s, Bitmap.create (6 * String.length s) 8;
  constructed_mount_state := λ _, UNMOUNTED;
  stof := demo_stof;
  percent_free_of := λ q, ((100 * Z.pos (Qden q) - Qnum q) `quot` Z.pos (Qden q))%Z
|}.

Definition demo_pool : Volume := mkVolume "thinpool" "twi-aotz--" "1073741824B" "42.50".

(** the machine after the constructor has run on a backend that has the
    thin pool and no drive *)
Definition demo_start : Machine :=
  mkMachine (mkpISO [] (mkNewDrive true) (mkOptions false) [PtrNewDrive; PtrOptions] 0)
            [demo_pool]
            [EvLog ["Rebuilding VirtualDrives from lvm volumes"]; EvLvsReport [];
             EvLog ["pISO: Updating menu items"];
             EvOnLoseFocus PtrNewDrive; EvOnLoseFocus PtrOptions; EvOnFocus PtrNewDrive].

(** the machine [demo_start] on a backend that reports a usage of 150.00
    for the thin pool *)
Definition demo_overfull : Machine :=
  mkMachine (self demo_start)
            [mkVolume "thinpool" "twi-aotz--" "1073741824B" "150.00"]
            [].

(** a machine whose only drive is Drive2 *)
Definition demo_drive2 : Machine :=
  mkMachine (mkpISO [mkVirtualDrive "Drive2" MOUNTED_EXTERNAL true]
                    (mkNewDrive false) (mkOptions false)
                    [PtrDrive 0; PtrNewDrive; PtrOptions] 0)
            [demo_pool; thin_volume "Drive2" "2000000000"]
            [].

(** a machine on which the cursor was moved to the new-drive action, behind
    the one drive *)
Definition demo_fullscreen : Machine :=
  mkMachine (mkpISO [mkVirtualDrive "Drive1" MOUNTED_EXTERNAL false]
                    (mkNewDrive true) (mkOptions false)
                    [PtrDrive 0; PtrNewDrive; PtrOptions] 1)
            [demo_pool; thin_volume "Drive1" "1000000000"]
            [].

(** * Properties *)

(** ** Vocabulary of the further properties *)

(** every live drive has its logical volume in the backend *)
Definition backed (m : Machine) : Prop :=
  ∀ name, name ∈ names (self m) → name ∈ lv_name <$> volumes m.

Section CarriedOut.
Context `{!Platform}.

(** Modelled from the spec: the sequences of [add_drive] and [remove_drive]
    the backend carries out, from the constructor on (lvmwrapper.hpp is not
    part of the sources).  The name of a Drive is the name of its logical
    volume and identifies it, so the names of the backend's volumes are all
    different, and a request to create a volume of a name the backend has
    already is a backend failure; any backend failure is fatal and ends
    the sequence. *)
Inductive carried_out : Machine → Prop :=
  | carried_out_new vols m :
      NoDup (lv_name <$> vols) →
      pISO_new (boot vols) = Returned (tt, m) → carried_out m
  | carried_out_add size format m d m' :
      carried_out m →
      next_name (self m) ∉ lv_name <$> volumes m →
      add_drive size format m = Returned (d, m') → carried_out m'
  | carried_out_remove drive m m' :
      carried_out m → remove_drive drive m = Returned (tt, m') → carried_out m'.

End CarriedOut.

Section CanvasVocabulary.
Context `{!Platform}.

(** what the items of a list draw, in the order of the list *)
Definition item_bitmaps (o : pISO) (items : list GUIItemPtr) : list Bitmap.t :=
  omap (λ p, (λ it, (GUIItem_render it).1) <$> deref p o) items.

End CanvasVocabulary.

(** ** The USB gadget *)

(** The structures of libusbgx that [init_usbgx] fills in. *)
Record usbg_gadget_attrs := mk_usbg_gadget_attrs {
  bcdUSB : Z;
  bDeviceClass : Z;
  bDeviceSubClass : Z;
  bDeviceProtocol : Z;
  bMaxPacketSize0 : Z;
  idVendor : Z;
  idProduct : Z;
  bcdDevice : Z
}.

Record usbg_gadget_strs := mk_usbg_gadget_strs {
  serial : string;
  manufacturer : string;
  product : string
}.

Record usbg_config_attrs := mk_usbg_config_attrs {
  bmAttributes : Z;
  bMaxPower : Z
}.

Record usbg_config_strs := mk_usbg_config_strs {
  configuration : string
}.

(** The calls [init_usbgx] makes to libusbgx, with the arguments that are
    not handles. *)
Inductive UsbgCall :=
  | UsbgInit (configfs_path : string)
  | UsbgCreateGadget (name : string) (g_attrs : usbg_gadget_attrs) (g_strs : usbg_gadget_strs)
  | UsbgCreateConfig (id : Z) (label : string) (c_attrs : usbg_config_attrs)
      (c_strs : usbg_config_strs)
  | UsbgCleanup.

#[global] Instance usbg_gadget_attrs_eq_dec : EqDecision usbg_gadget_attrs.
Proof. solve_decision. Defined.
#[global] Instance usbg_gadget_strs_eq_dec : EqDecision usbg_gadget_strs.
Proof. solve_decision. Defined.
#[global] Instance usbg_config_attrs_eq_dec : EqDecision usbg_config_attrs.
Proof. solve_decision. Defined.
#[global] Instance usbg_config_strs_eq_dec : EqDecision usbg_config_strs.
Proof. solve_decision. Defined.
#[global] Instance UsbgCall_eq_dec : EqDecision UsbgCall.
Proof. solve_decision. Defined.

(** libusbgx and the constants of config.hpp and of the kernel's ch9.h, none
    of which is part of the sources: the code each call returns, and the
    two functions that describe a code. *)
Class Usbg := {
  VENDOR_ID : Z;
  PRODUCT_ID : Z;
  USB_CLASS_PER_INTERFACE : Z;
  USBG_SUCCESS : Z;
  usbg_init : string → Z;
  usbg_create_gadget : string → usbg_gadget_attrs → usbg_gadget_strs → Z;
  usbg_create_config : Z → string → usbg_config_attrs → usbg_config_strs → Z;
  usbg_error_name : Z → string;
  usbg_strerror : Z → string
}.

Section Gadget.
Context `{!Usbg}.

(** [void pISO::init_usbgx()]: the calls it makes to libusbgx, in their
    order, and how it ends; [piso_error] is fatal.  The handles the library
    hands out ([usb_state], [m_gadget], [m_usb_config]) are opaque and left
    out. *)
Definition init_usbgx : list UsbgCall * outcome unit :=
  let g_attrs :=
    {| bcdUSB := 0x0200;
       bDeviceClass := USB_CLASS_PER_INTERFACE;
       bDeviceSubClass := 0x00;
       bDeviceProtocol := 0x00;
       bMaxPacketSize0 := 64;
       idVendor := VENDOR_ID;
       idProduct := PRODUCT_ID;
       bcdDevice := 0x0100 |} in
  let g_strs :=
    {| serial := "0000000000000000";
       manufacturer := "Adam Schwalm & James Tate";
       product := "pISO" |} in
  let usbg_ret := usbg_init "/sys/kernel/config" in
  let calls := [UsbgInit "/sys/kernel/config"] in
  if decide (usbg_ret ≠ USBG_SUCCESS) then
    (calls, Fatal ["init_usbgx error:"; usbg_error_name usbg_ret; ": ";
                   usbg_strerror usbg_ret])
  else
    let usbg_ret := usbg_create_gadget "g1" g_attrs g_strs in
    let calls := calls ++ [UsbgCreateGadget "g1" g_attrs g_strs] in
    if decide (usbg_ret ≠ USBG_SUCCESS) then
      (calls ++ [UsbgCleanup],
       Fatal ["init_usbgx error: "; usbg_error_name usbg_ret; ": ";
              usbg_strerror usbg_ret])
    else
      let c_strs := {| configuration := "Config 1" |} in
      let c_attrs := {| bmAttributes := 0x80; bMaxPower := 250 |} in
      let usbg_ret := usbg_create_config 1 "c" c_attrs c_strs in
      let calls := calls ++ [UsbgCreateConfig 1 "c" c_attrs c_strs] in
      if decide (usbg_ret ≠ USBG_SUCCESS) then
        (calls ++ [UsbgCleanup],
         Fatal ["init_usbgx error: "; usbg_error_name usbg_ret; ": ";
                usbg_strerror usbg_ret])
      else (calls, Returned tt).

(** the gadget and the configuration [init_usbgx] asks for *)
Definition the_gadget_attrs : usbg_gadget_attrs :=
  mk_usbg_gadget_attrs 512 USB_CLASS_PER_INTERFACE 0 0 64 VENDOR_ID PRODUCT_ID 256.
Definition the_gadget_strs : usbg_gadget_strs :=
  mk_usbg_gadget_strs "0000000000000000" "Adam Schwalm & James Tate" "pISO".
Definition the_config_attrs : usbg_config_attrs := mk_usbg_config_attrs 128 250.
Definition the_config_strs : usbg_config_strs := mk_usbg_config_strs "Config 1".

Definition is_create_config (c : UsbgCall) : bool :=
  match c with UsbgCreateConfig _ _ _ _ => true | _ => false end.

End Gadget.

(** a libusbgx on which the gadget cannot be created *)
Definition demo_usbg : Usbg := {|
  VENDOR_ID := 0x1d6b;
  PRODUCT_ID := 0x0104;
  USB_CLASS_PER_INTERFACE := 0;
  USBG_SUCCESS := 0;
  usbg_init := λ _, 0%Z;
  usbg_create_gadget := λ _ _ _, (-7)%Z;
  usbg_create_config := λ _ _ _ _, 0%Z;
  usbg_error_name := λ _, "USBG_ERROR_EXIST";
  usbg_strerror := λ _, "Already exist"
|}.

(** a machine with the drives Drive1 and Drive2 *)
Definition demo_two_drives : Machine :=
  mkMachine (mkpISO [mkVirtualDrive "Drive1" MOUNTED_EXTERNAL true;
                     mkVirtualDrive "Drive2" MOUNTED_EXTERNAL false]
                    (mkNewDrive false) (mkOptions false)
                    [PtrDrive 0; PtrDrive 1; PtrNewDrive; PtrOptions] 0)
            [demo_pool; thin_volume "Drive1" "1000000000"; thin_volume "Drive2" "2000000000"]
            [].

(** the machine with the one drive Drive2 on a backend that lost its thin
    pool *)
Definition demo_no_pool : Machine :=
  mkMachine (self demo_drive2) [thin_volume "Drive2" "2000000000"] [].

(** the machine [demo_drive2] on a backend whose report gives 1e40 for the
    usage of the thin pool, more than a [float] holds *)
Definition demo_out_of_range : Machine :=
  mkMachine (self demo_drive2)
            [mkVolume "thinpool" "twi-aotz--" "1073741824B" "1e40"]
            [].

(** ** Running the monad *)

(** [mstep] unfolds the primitive computations in the goal. *)
Ltac mstep :=
  repeat (progress (unfold mbind, mret, M_bind, M_ret, emit, modify, get_self,
                      put_self, get_volumes, put_volumes, piso_log, undefined,
                      throw, piso_error; cbn)).

(** Two records with the same fields. *)
Lemma pISO_eta o :
  mkpISO (m_drives o) (m_newdrive o) (m_options o) (m_list_items o) (m_selection o) = o.
Proof. by destruct o. Qed.

Lemma Machine_eta m : mkMachine (self m) (volumes m) (trace m) = m.
Proof. by destruct m. Qed.

Lemma for_each_app {A} (l1 l2 : list A) (body : A → M unit) m :
  for_each (l1 ++ l2) body m = (for_each l1 body;; for_each l2 body) m.
Proof.
  revert m. induction l1 as [|x l1 IH]; intros m; [done|].
  cbn. unfold mbind, M_bind. destruct (body x m) as [[[] m1]| | |]; [|done..].
  apply IH.
Qed.

(** The first loop of [update_list_items] appends the address of every slot. *)
Lemma for_each_push_back (l : list nat) o vs tr :
  for_each l (λ slot, modify (push_back_item (PtrDrive slot))) (mkMachine o vs tr)
  = Returned (tt, mkMachine (set_list_items (m_list_items o ++ (PtrDrive <$> l)) o) vs tr).
Proof.
  revert o. induction l as [|i l IH]; intros o.
  - cbn. unfold set_list_items. by rewrite app_nil_r, pISO_eta.
  - cbn [for_each]. mstep. rewrite IH. cbn.
    unfold push_back_item, set_list_items. cbn. by rewrite <-app_assoc.
Qed.

(** The second loop, over the addresses of the first [n] slots: each drive
    there loses its focus and every call is recorded. *)
Lemma for_each_on_lose_focus_drives (n : nat) o vs tr :
  n ≤ length (m_drives o) →
  for_each (PtrDrive <$> seq 0 n) on_lose_focus (mkMachine o vs tr)
  = Returned (tt, mkMachine
      (set_drives ((unfocus <$> take n (m_drives o)) ++ drop n (m_drives o)) o)
      vs (tr ++ (EvOnLoseFocus <$> (PtrDrive <$> seq 0 n)))).
Proof.
  induction n as [|n IH]; intros Hn.
  - destruct o; cbn. unfold set_drives; cbn. by rewrite app_nil_r.
  - rewrite seq_S, !fmap_app, for_each_app. cbn [fmap list_fmap for_each].
    unfold mbind at 1, M_bind at 1. rewrite IH by lia.
    destruct (lookup_lt_is_Some_2 (m_drives o) n) as [d Hd]; [lia|].
    unfold on_lose_focus, call_set_focus. mstep.
    assert (((unfocus <$> take n (m_drives o)) ++ drop n (m_drives o)) !! n = Some d) as ->.
    { rewrite lookup_app_r; rewrite length_fmap, length_take; [|lia].
      replace (n - n `min` length (m_drives o)) with 0 by lia.
      by rewrite lookup_drop, Nat.add_0_r. }
    cbn. unfold set_drives; cbn. rewrite <-app_assoc. do 3 f_equal.
    rewrite (take_S_r _ _ _ Hd), fmap_app, <-app_assoc. cbn.
    rewrite insert_app_r_alt; rewrite length_fmap, length_take; [|lia].
    replace (n - n `min` length (m_drives o)) with 0 by lia.
    by rewrite (drop_S _ _ _ Hd).
Qed.

(** ** What a rebuild of the list does *)

Lemma update_list_items_run m :
  update_list_items m
  = Returned (tt, mkMachine (rebuilt (self m)) (volumes m) (trace m ++ update_events (self m))).
Proof.
  destruct m as [o vs tr]. unfold update_list_items. mstep.
  rewrite for_each_push_back. cbn.
  unfold push_back_item. cbn. rewrite <-?app_assoc. cbn.
  rewrite for_each_app.
  unfold mbind, M_bind.
  rewrite for_each_on_lose_focus_drives by (cbn; lia). cbn.
  rewrite firstn_all, drop_all, app_nil_r.
  unfold on_lose_focus, call_set_focus. mstep.
  unfold has_selection. cbn. rewrite length_app, length_fmap, length_seq. cbn.
  rewrite bool_decide_true by lia.
  unfold rebuilt, update_events, menu_items, first_item. cbn.
  destruct (m_drives o) as [|d ds] eqn:Hds; cbn.
  - unfold on_focus, call_set_focus. mstep.
    unfold set_newdrive. cbn. by repeat (rewrite <-app_assoc; cbn).
  - unfold on_focus, call_set_focus. mstep.
    unfold set_drives. cbn. rewrite fmap_app.
    repeat (rewrite <-app_assoc; cbn). done.
Qed.

Lemma rebuild_loop_run `{!Platform} (lvs : list Volume) o vs tr :
  for_each lvs (λ volume,
      if first_char_is "V" (lv_attr volume) then
        piso_log ["Found volume "; lv_name volume];;
        modify (push_back_drive (VirtualDrive_new (lv_name volume)))
      else mret tt) (mkMachine o vs tr)
  = Returned (tt, mkMachine
      (set_drives (m_drives o ++ (VirtualDrive_new ∘ lv_name <$> virtual_volumes lvs)) o)
      vs
      (tr ++ ((λ v, EvLog ["Found volume "; lv_name v]) <$> virtual_volumes lvs))).
Proof.
  revert o tr. induction lvs as [|v lvs IH]; intros o tr.
  - cbn. unfold set_drives. by rewrite !app_nil_r, pISO_eta.
  - cbn [for_each]. unfold virtual_volumes. rewrite filter_cons.
    fold (virtual_volumes lvs). unfold mbind at 1, M_bind at 1.
    destruct (first_char_is "V" (lv_attr v)) eqn:Hv.
    + mstep. rewrite IH.
      unfold push_back_drive, set_drives. cbn. by rewrite <-!app_assoc.
    + mstep. apply IH.
Qed.

Lemma rebuild_drives_from_volumes_run `{!Platform} m :
  let o := set_drives (VirtualDrive_new ∘ lv_name <$> virtual_volumes (volumes m)) (self m) in
  rebuild_drives_from_volumes m
  = Returned (tt, mkMachine (rebuilt o) (volumes m)
                    (trace m ++ rebuild_events (volumes m) ++ update_events o)).
Proof.
  destruct m as [o vs tr]. unfold rebuild_drives_from_volumes, lvm_lvs_report. mstep.
  rewrite (rebuild_loop_run (H := H)). rewrite update_list_items_run. cbn.
  unfold rebuild_events, set_drives. cbn.
  by repeat (rewrite <-app_assoc; cbn).
Qed.

(** ** What add_drive and remove_drive do *)

Lemma insert_back {A} (l : list A) (x y : A) :
  <[pred (length (l ++ [x])) := y]> (l ++ [x]) = l ++ [y].
Proof.
  rewrite length_app. cbn. replace (pred (length l + 1)) with (length l + 0) by lia.
  by rewrite insert_app_r.
Qed.

Lemma last_focus_first (ds : list VirtualDrive) (x : VirtualDrive) :
  last (focus_first (ds ++ [x]))
  = Some (VirtualDrive_set_focus (bool_decide (ds = [])) x).
Proof.
  destruct ds as [|d ds]; [done|].
  cbn [app focus_first]. rewrite fmap_app. cbn [fmap list_fmap].
  rewrite app_comm_cons, last_snoc. by rewrite bool_decide_false.
Qed.

Section Runs.
Context `{!Platform}.

Lemma add_drive_run (size : N) (format : DriveFormat) m :
  let o := self m in
  let name := next_name o in
  add_drive size format m
  = Returned
      (mkVirtualDrive name MOUNTED_EXTERNAL (bool_decide (m_drives o = [])),
       mkMachine (rebuilt (added o))
                 (volumes m ++ [thin_volume name (to_string size)])
                 (trace m ++ add_events size format name ++ update_events (added o))).
Proof.
  destruct m as [o vs tr]. unfold add_drive, lvm_run, run_command. mstep.
  unfold mount_external_back. mstep.
  unfold push_back_drive at 1. cbn. rewrite last_snoc. mstep.
  unfold push_back_drive. cbn. rewrite insert_back.
  rewrite update_list_items_run. cbn.
  unfold drives_back. mstep. rewrite last_focus_first. cbn.
  unfold added, add_events, next_name, lvcreate_args, mount_internal_args,
    first_partition_of, mount_internal_args, set_drives, VirtualDrive_set_focus.
  cbn. by repeat (rewrite <-app_assoc; cbn).
Qed.

(** [std::find] comes back with [end()]: nothing but the two log lines. *)
Lemma remove_drive_absent (drive : VirtualDrive) m :
  list_find (λ d, VirtualDrive_eqb d drive) (m_drives (self m)) = None →
  remove_drive drive m
  = Returned (tt, mkMachine (self m) (volumes m)
                    (trace m ++ [EvLog ["Removing drive "; m_name drive];
                                 EvLog ["Warning: drive not found"]])).
Proof.
  intros Hfind. destruct m as [o vs tr]. unfold remove_drive. mstep.
  cbn in Hfind. rewrite Hfind. mstep. by rewrite <-app_assoc.
Qed.

(** [std::find] comes back with the iterator to slot [i]. *)
Lemma remove_drive_present (drive : VirtualDrive) m (i : nat) (d : VirtualDrive) :
  list_find (λ d, VirtualDrive_eqb d drive) (m_drives (self m)) = Some (i, d) →
  remove_drive drive m
  = Returned (tt, mkMachine (rebuilt (erased i (self m)))
                    (lvm_effect (lvremove_args (m_name drive)) (volumes m))
                    (trace m ++ [EvLog ["Removing drive "; m_name drive];
                                 EvLvmRun (lvremove_args (m_name drive))]
                       ++ update_events (erased i (self m)))).
Proof.
  intros Hfind. destruct m as [o vs tr]. unfold remove_drive, lvm_run. mstep.
  cbn in Hfind. rewrite Hfind. mstep.
  rewrite update_list_items_run. cbn.
  unfold erased, lvremove_args. by repeat (rewrite <-app_assoc; cbn).
Qed.

End Runs.

(** ** The rebuilt list *)

Lemma length_focus_first ds : length (focus_first ds) = length ds.
Proof. destruct ds; cbn; [done|]. by rewrite length_fmap. Qed.

Lemma focus_first_lookup ds i :
  focus_first ds !! i = VirtualDrive_set_focus (bool_decide (i = 0)) <$> ds !! i.
Proof.
  destruct ds as [|d ds]; [done|]. destruct i as [|i]; [done|].
  exact (list_lookup_fmap unfocus ds i).
Qed.

Lemma names_focus_first ds : m_name <$> focus_first ds = m_name <$> ds.
Proof.
  destruct ds as [|d ds]; [done|]. cbn. f_equal.
  rewrite <-list_fmap_compose. by apply list_fmap_ext.
Qed.

Lemma mount_states_focus_first ds :
  m_mount_state <$> focus_first ds = m_mount_state <$> ds.
Proof.
  destruct ds as [|d ds]; [done|]. cbn. f_equal.
  rewrite <-list_fmap_compose. by apply list_fmap_ext.
Qed.

Lemma menu_items_rebuilt o : menu_items (rebuilt o) = menu_items o.
Proof. unfold menu_items. cbn. by rewrite length_focus_first. Qed.

Lemma rebuilt_well_formed o : well_formed (rebuilt o).
Proof. split; [|done]. by rewrite menu_items_rebuilt. Qed.

Lemma length_menu_items o : length (menu_items o) = length (m_drives o) + 2.
Proof. unfold menu_items. by rewrite length_app, length_fmap, length_seq. Qed.

Lemma menu_items_lookup o i p :
  menu_items o !! i = Some p ↔
    (i < length (m_drives o) ∧ p = PtrDrive i)
    ∨ (i = length (m_drives o) ∧ p = PtrNewDrive)
    ∨ (i = S (length (m_drives o)) ∧ p = PtrOptions).
Proof.
  unfold menu_items. rewrite lookup_app_Some, list_lookup_fmap_Some.
  rewrite length_fmap, length_seq. setoid_rewrite lookup_seq. split.
  - intros [(j & -> & -> & ?)|[? Hi]]; [by left|right].
    destruct (i - length (m_drives o)) as [|[|k]] eqn:Hk; cbn in Hi; [| |done].
    + left. split; [lia|congruence].
    + right. split; [lia|congruence].
  - intros [[? ->]|[[-> ->]|[-> ->]]].
    + left. exists i. split; [done|]. split; [done|lia].
    + right. split; [lia|]. by rewrite Nat.sub_diag.
    + right. split; [lia|]. by replace (S _ - _) with 1 by lia.
Qed.

Lemma menu_items_head o : menu_items o !! 0 = Some (first_item o).
Proof.
  apply menu_items_lookup. unfold first_item.
  destruct (m_drives o); cbn; [right; left; done|left; split; [lia|done]].
Qed.

(** Behind every pointer of a rebuilt list there is an item, and the item
    has the focus exactly when it is the first of the list. *)
Lemma rebuilt_focus o i p :
  m_list_items (rebuilt o) !! i = Some p →
  ∃ it, deref p (rebuilt o) = Some it ∧ (item_focus it = true ↔ i = 0).
Proof.
  cbn [rebuilt m_list_items]. rewrite menu_items_lookup.
  intros [[Hi ->]|[[-> ->]|[-> ->]]]; cbn.
  - destruct (lookup_lt_is_Some_2 (m_drives o) i Hi) as [d Hd].
    rewrite focus_first_lookup, Hd. cbn. eexists; split; [done|]. cbn.
    by rewrite bool_decide_eq_true.
  - eexists; split; [done|]. cbn. rewrite bool_decide_eq_true.
    by destruct (m_drives o).
  - eexists; split; [done|]. cbn. split; [done|lia].
Qed.

(** ** The const member functions *)

Lemma constM_ret {A} (a : A) : constM (mret a).
Proof. intros m a' m' [= _ <-]. done. Qed.

Lemma constM_bind {A B} (c : M A) (k : A → M B) :
  constM c → (∀ a, constM (k a)) → constM (c ≫= k).
Proof.
  intros Hc Hk m b m'. unfold mbind, M_bind.
  destruct (c m) as [[a m1]| | |] eqn:Hcm; [|done..].
  intros Hkm. destruct (Hc _ _ _ Hcm) as [<- <-]. by eapply Hk.
Qed.

Lemma constM_emit e : constM (emit e).
Proof. intros m a m' [= _ <-]. done. Qed.

Lemma constM_get_self : constM get_self.
Proof. intros m a m' [= _ <-]. done. Qed.

Lemma constM_get_volumes : constM get_volumes.
Proof. intros m a m' [= _ <-]. done. Qed.

Lemma constM_fail {A} (c : M A) : (∀ m a m', c m ≠ Returned (a, m')) → constM c.
Proof. intros Hc m a m' Hm. by destruct (Hc _ _ _ Hm). Qed.

Ltac solve_constM :=
  repeat first
    [ apply constM_bind; [|intros ?]
    | apply constM_ret | apply constM_emit | apply constM_get_self
    | apply constM_get_volumes
    | apply constM_fail; done
    | progress unfold piso_log ].

Lemma constM_stoull s : constM (stoull s).
Proof.
  unfold stoull. destruct (match skip_spaces s with
                           | EmptyString => _ | String _ _ => _ end) as [negative s2].
  destruct (starts_with_digit s2); [|by apply constM_fail].
  destruct (_ <? _)%N; [apply constM_ret|by apply constM_fail].
Qed.

Section Const.
Context `{!Platform}.

Lemma percent_used_loop_run lvs m :
  percent_used_loop lvs m
  = match thinpool lvs with
    | None => Fatal ["pISO: unable to locate thinpool"]
    | Some pool =>
        match stof (data_percent pool) with
        | Parsed f => Returned (f, m)
        | InvalidArgument => Threw "invalid_argument"
        | OutOfRange => Threw "out_of_range"
        end
    end.
Proof.
  unfold thinpool. induction lvs as [|v lvs IH]; [done|].
  cbn [percent_used_loop list_find]. case_decide.
  - cbn. by destruct (stof _).
  - rewrite IH. by destruct (list_find _ lvs) as [[]|].
Qed.

Lemma percent_used_run m :
  percent_used m
  = match thinpool (volumes m) with
    | None => Fatal ["pISO: unable to locate thinpool"]
    | Some pool =>
        match stof (data_percent pool) with
        | Parsed f => Returned (f, mkMachine (self m) (volumes m) (trace m ++ [EvLvsReport []]))
        | InvalidArgument => Threw "invalid_argument"
        | OutOfRange => Threw "out_of_range"
        end
    end.
Proof. unfold percent_used, lvm_lvs_report. mstep. by rewrite percent_used_loop_run. Qed.

Lemma constM_percent_used : constM percent_used.
Proof.
  intros m p m'. rewrite percent_used_run.
  destruct (thinpool _); [|done]. destruct (stof _); [|done..].
  by intros [= _ <-].
Qed.

Lemma constM_size : constM size.
Proof.
  unfold size, lvm_lvs_report_of. solve_constM.
  - destruct (list_find _ _) as [[]|]; solve_constM.
  - apply constM_stoull.
Qed.

Lemma constM_render_item item bitmap : constM (render_item item bitmap).
Proof.
  unfold render_item. solve_constM. destruct (deref _ _); solve_constM.
  case_decide; solve_constM.
Qed.

Lemma constM_render_loop items bitmap : constM (render_loop items bitmap).
Proof.
  revert bitmap. induction items as [|item items IH]; intros bitmap;
    cbn [render_loop]; [apply constM_ret|].
  apply constM_bind; [apply constM_render_item|].
  intros [bitmap'|result]; [apply IH|apply constM_ret].
Qed.

Lemma constM_render : constM render.
Proof.
  unfold render. solve_constM; [apply constM_render_loop|].
  destruct a1; [|apply constM_ret].
  apply constM_bind; [apply constM_percent_used|].
  intros [q| |]; [apply constM_ret|by apply constM_fail..].
Qed.

End Const.

(** ** Rebuilding the item list *)

Section Rebuild.
Context `{!Platform}.

Lemma well_formed_selection o :
  well_formed o →
  ∃ it, m_list_items o !! m_selection o = Some (first_item o)
        ∧ deref (first_item o) o = Some it.
Proof.
  intros [-> ->]. rewrite menu_items_head. unfold first_item.
  destruct (m_drives o) as [|d ds] eqn:Hds; cbn; [by eexists|].
  rewrite Hds. by eexists.
Qed.

(** Every member function of piso.cpp leaves the list in the shape of a
    rebuild. *)
Lemma reachable_well_formed m : reachable m → well_formed (self m).
Proof.
  induction 1 as [vols m Hm|m m' _ IH Hm|size format m d m' _ IH Hm
                 |drive m m' _ IH Hm|m p m' _ IH Hm|m n m' _ IH Hm
                 |m frame m' _ IH Hm].
  - unfold pISO_new in Hm. rewrite rebuild_drives_from_volumes_run in Hm.
    injection Hm as <-. apply rebuilt_well_formed.
  - rewrite rebuild_drives_from_volumes_run in Hm.
    injection Hm as <-. apply rebuilt_well_formed.
  - rewrite add_drive_run in Hm. injection Hm as _ <-. apply rebuilt_well_formed.
  - destruct (list_find (λ d, VirtualDrive_eqb d drive) (m_drives (self m)))
      as [[i d]|] eqn:Hfind.
    + rewrite (remove_drive_present _ _ _ _ Hfind) in Hm.
      injection Hm as <-. apply rebuilt_well_formed.
    + rewrite (remove_drive_absent _ _ Hfind) in Hm. by injection Hm as <-.
  - by destruct (constM_percent_used _ _ _ Hm) as [-> _].
  - by destruct (constM_size _ _ _ Hm) as [-> _].
  - by destruct (constM_render _ _ _ Hm) as [-> _].
Qed.

(** C2: a rebuild of the list sends [on_lose_focus] to every item of the
    new sequence, puts the cursor on the first element, and leaves exactly
    the first element focused, [on_focus] being the last call it makes. *)
Theorem update_list_items_focus m :
  ∃ m' first,
    update_list_items m = Returned (tt, m')
    ∧ trace m' = trace m ++ [EvLog ["pISO: Updating menu items"]]
                   ++ (EvOnLoseFocus <$> m_list_items (self m'))
                   ++ [EvOnFocus first]
    ∧ m_selection (self m') = 0
    ∧ m_list_items (self m') !! 0 = Some first
    ∧ ∀ i p, m_list_items (self m') !! i = Some p →
        ∃ it, deref p (self m') = Some it ∧ (item_focus it = true ↔ i = 0).
Proof.
  exists (mkMachine (rebuilt (self m)) (volumes m) (trace m ++ update_events (self m))),
         (first_item (self m)).
  split; [apply update_list_items_run|]. cbn [self trace].
  split; [done|]. split; [done|]. split; [apply menu_items_head|].
  apply rebuilt_focus.
Qed.

(** the volumes that are surfaced are those of the report whose attribute
    string starts with the letter V *)
Lemma elem_of_virtual_volumes lvs v :
  v ∈ virtual_volumes lvs ↔ v ∈ lvs ∧ ∃ rest, lv_attr v = String "V" rest.
Proof.
  unfold virtual_volumes. rewrite list_elem_of_filter. unfold first_char_is.
  split.
  - intros [Hv ?]. split; [done|].
    destruct (lv_attr v) as [|a rest]; [done|].
    apply bool_decide_unpack in Hv as ->. by eexists.
  - intros [? [rest ->]]. split; [|done]. by apply bool_decide_pack.
Qed.

(** C9: after a rebuild the item sequence is the drives, in the order of
    the drive list, then the new-drive action, then the options action;
    a rebuild from the backend surfaces the volumes of the report whose
    attribute flags them as virtual, in the order of the report, and no
    other. *)
Theorem rebuild_sequence m :
  (∃ m', update_list_items m = Returned (tt, m')
         ∧ names (self m') = names (self m)
         ∧ m_list_items (self m')
           = (PtrDrive <$> seq 0 (length (m_drives (self m'))))
               ++ [PtrNewDrive; PtrOptions]
         ∧ mapM (λ p, deref p (self m')) (m_list_items (self m'))
           = Some ((ItemDrive <$> m_drives (self m'))
                     ++ [ItemNewDrive (m_newdrive (self m'));
                         ItemOptions (m_options (self m'))]))
  ∧ (∃ m', rebuild_drives_from_volumes m = Returned (tt, m')
           ∧ names (self m') = lv_name <$> virtual_volumes (volumes m)
           ∧ m_list_items (self m')
             = (PtrDrive <$> seq 0 (length (virtual_volumes (volumes m))))
                 ++ [PtrNewDrive; PtrOptions])
  ∧ (∀ v, v ∈ virtual_volumes (volumes m)
          ↔ v ∈ volumes m ∧ ∃ rest, lv_attr v = String "V" rest).
Proof.
  split; [|split; [|apply elem_of_virtual_volumes]].
  - eexists. split; [apply update_list_items_run|]. cbn [self].
    split; [apply names_focus_first|].
    split; [symmetry; apply menu_items_rebuilt|].
    change (m_list_items (rebuilt (self m))) with (menu_items (self m)).
    rewrite <-(menu_items_rebuilt (self m)).
    generalize (rebuilt (self m)). intros o. unfold menu_items.
    apply mapM_Some, Forall2_app.
    + apply Forall2_fmap, Forall2_lookup. intros i.
      destruct (decide (i < length (m_drives o))) as [Hi|Hi].
      * rewrite lookup_seq_lt by done.
        destruct (lookup_lt_is_Some_2 (m_drives o) i Hi) as [d Hd].
        rewrite Hd. constructor. cbn. by rewrite Hd.
      * rewrite lookup_seq_ge, lookup_ge_None_2 by lia. constructor.
    + by repeat constructor.
  - eexists. split; [apply rebuild_drives_from_volumes_run|]. cbn [self].
    unfold names. cbn. rewrite names_focus_first, <-list_fmap_compose.
    split; [done|]. unfold menu_items. cbn. by rewrite length_fmap.
Qed.

(** C10: after [update_list_items] the list holds the two actions beside
    the drives, so it is never empty, the cursor selects its first element,
    which is the last to be called, with [on_focus]; and no machine that
    the member functions of piso.cpp lead to has an empty list or a cursor
    that does not refer to an item. *)
Theorem menu_never_empty :
  (∀ m, ∃ m' first it,
      update_list_items m = Returned (tt, m')
      ∧ length (m_list_items (self m')) = length (m_drives (self m)) + 2
      ∧ PtrNewDrive ∈ m_list_items (self m')
      ∧ PtrOptions ∈ m_list_items (self m')
      ∧ has_selection (self m') = true
      ∧ m_list_items (self m') !! m_selection (self m') = Some first
      ∧ m_list_items (self m') !! 0 = Some first
      ∧ deref first (self m') = Some it
      ∧ last (trace m') = Some (EvOnFocus first))
  ∧ (∀ m, reachable m →
      m_list_items (self m) ≠ []
      ∧ has_selection (self m) = true
      ∧ ∃ p it, m_list_items (self m) !! m_selection (self m) = Some p
                ∧ deref p (self m) = Some it).
Proof.
  split.
  - intros m.
    destruct (well_formed_selection _ (rebuilt_well_formed (self m))) as (it & Hsel & Hit).
    exists (mkMachine (rebuilt (self m)) (volumes m) (trace m ++ update_events (self m))),
           (first_item (rebuilt (self m))), it.
    split; [apply update_list_items_run|]. cbn [self trace].
    split; [apply length_menu_items|].
    split; [apply list_elem_of_lookup; exists (length (m_drives (self m)));
            apply menu_items_lookup; auto|].
    split; [apply list_elem_of_lookup; exists (S (length (m_drives (self m))));
            apply menu_items_lookup; auto|].
    split; [unfold has_selection; cbn; rewrite length_menu_items;
            apply bool_decide_eq_true; lia|].
    split; [done|]. split; [done|]. split; [done|].
    unfold update_events. rewrite app_comm_cons, !app_assoc, last_snoc.
    do 2 f_equal. unfold first_item. cbn. by destruct (m_drives (self m)).
  - intros m Hm%reachable_well_formed.
    destruct (well_formed_selection _ Hm) as (it & Hsel & Hit).
    destruct Hm as [Hitems Hcur].
    split; [rewrite Hitems; unfold menu_items; by destruct (_ <$> _)|].
    split; [|by eauto].
    unfold has_selection. rewrite Hitems, Hcur, length_menu_items.
    apply bool_decide_eq_true. lia.
Qed.

End Rebuild.

(** ** The drive lifecycle *)

Section Lifecycle.
Context `{!Platform}.

Lemma list_find_name_None (drive : VirtualDrive) (ds : list VirtualDrive) :
  list_find (λ d, VirtualDrive_eqb d drive) ds = None ↔ m_name drive ∉ m_name <$> ds.
Proof.
  rewrite list_find_None, Forall_forall, list_elem_of_fmap. split.
  - intros Hall (d & Hname & Hd). apply (Hall d Hd).
    by apply bool_decide_pack.
  - intros Hnot d Hd Heq%bool_decide_unpack. apply Hnot. by exists d.
Qed.

Lemma list_find_name_Some (drive : VirtualDrive) (ds : list VirtualDrive) :
  m_name drive ∈ m_name <$> ds →
  ∃ i d, list_find (λ d, VirtualDrive_eqb d drive) ds = Some (i, d)
         ∧ ds !! i = Some d ∧ m_name d = m_name drive.
Proof.
  intros Hin.
  destruct (list_find (λ d, VirtualDrive_eqb d drive) ds) as [[i d]|] eqn:Hfind.
  - exists i, d. split; [done|].
    apply list_find_Some in Hfind as (? & Heq%bool_decide_unpack & _). done.
  - by apply list_find_name_None in Hfind.
Qed.

Lemma lvm_effect_lvremove (name : string) (vols : list Volume) :
  lvm_effect (lvremove_args name) vols = filter (λ v, lv_name v ≠ name) vols.
Proof. done. Qed.

Lemma lvm_effect_lvcreate (size : N) (name : string) (vols : list Volume) :
  lvm_effect (lvcreate_args size name) vols = vols ++ [thin_volume name (to_string size)].
Proof. done. Qed.

Lemma backend_calls_app tr1 tr2 :
  backend_calls (tr1 ++ tr2) = backend_calls tr1 + backend_calls tr2.
Proof. unfold backend_calls. by rewrite filter_app, length_app. Qed.

(** C3: removing a drive whose name no live drive has only logs, the
    second line being the warning: the object, with its drives and its
    cursor, and the backend stay as they were and no backend call is made.
    Removing a drive that is there deletes its volume at the backend, erases
    the first entry of that name and ends with a full rebuild of the list. *)
Theorem remove_drive_cases (drive : VirtualDrive) m :
  (m_name drive ∉ names (self m) →
     ∃ m', remove_drive drive m = Returned (tt, m')
           ∧ self m' = self m
           ∧ volumes m' = volumes m
           ∧ backend_calls (trace m') = backend_calls (trace m)
           ∧ trace m' = trace m ++ [EvLog ["Removing drive "; m_name drive];
                                    EvLog ["Warning: drive not found"]])
  ∧ (m_name drive ∈ names (self m) →
     ∃ i d m1 m',
       m_drives (self m) !! i = Some d ∧ m_name d = m_name drive
       ∧ m_drives (self m1) = delete i (m_drives (self m))
       ∧ volumes m1 = filter (λ v, lv_name v ≠ m_name drive) (volumes m)
       ∧ trace m1 = trace m ++ [EvLog ["Removing drive "; m_name drive];
                                EvLvmRun ["lvremove "; VOLUME_GROUP_NAME; "/";
                                          m_name drive; " -y"]]
       ∧ remove_drive drive m = update_list_items m1
       ∧ remove_drive drive m = Returned (tt, m')
       ∧ volumes m' = volumes m1
       ∧ names (self m') = names (self m1)).
Proof.
  split.
  - intros Hfind%list_find_name_None. eexists.
    split; [exact (remove_drive_absent _ _ Hfind)|]. cbn [self volumes trace].
    split_and!; [done..| |done].
    rewrite backend_calls_app. exact (Nat.add_0_r _).
  - intros (i & d & Hfind & Hd & Hname)%list_find_name_Some.
    exists i, d,
      (mkMachine (erased i (self m))
                 (lvm_effect (lvremove_args (m_name drive)) (volumes m))
                 (trace m ++ [EvLog ["Removing drive "; m_name drive];
                              EvLvmRun (lvremove_args (m_name drive))])).
    exists (mkMachine (rebuilt (erased i (self m)))
                      (lvm_effect (lvremove_args (m_name drive)) (volumes m))
                      (trace m ++ [EvLog ["Removing drive "; m_name drive];
                                   EvLvmRun (lvremove_args (m_name drive))]
                         ++ update_events (erased i (self m)))).
    do 5 (split; [done|]).
    split; [|split; [exact (remove_drive_present _ _ _ _ Hfind)|]].
    + rewrite update_list_items_run, (remove_drive_present _ _ _ _ Hfind).
      cbn [self volumes trace]. by rewrite <-?app_assoc.
    + cbn [self volumes]. split; [done|apply names_focus_first].
Qed.

(** Erasing an entry never makes two names equal. *)
Lemma remove_drive_NoDup (drive : VirtualDrive) m :
  ∃ m', remove_drive drive m = Returned (tt, m')
        ∧ names (self m') `sublist_of` names (self m).
Proof.
  destruct (list_find (λ d, VirtualDrive_eqb d drive) (m_drives (self m)))
    as [[i d]|] eqn:Hfind.
  - eexists. split; [exact (remove_drive_present _ _ _ _ Hfind)|]. cbn [self].
    unfold names. cbn. rewrite names_focus_first.
    apply fmap_sublist, sublist_delete.
  - eexists. split; [exact (remove_drive_absent _ _ Hfind)|]. done.
Qed.

Lemma add_drive_names (size : N) (format : DriveFormat) m :
  ∃ d m', add_drive size format m = Returned (d, m')
          ∧ m_name d = "Drive" +:+ to_string (N.of_nat (length (m_drives (self m))) + 1)
          ∧ names (self m') = names (self m) ++ [m_name d]
          ∧ last (m_drives (self m')) = Some d.
Proof.
  do 2 eexists. split; [apply add_drive_run|]. cbn [self m_name].
  split; [done|]. unfold names. cbn. rewrite names_focus_first, last_focus_first.
  split; [by rewrite fmap_app|done].
Qed.

Lemma drive_names_S n :
  drive_names (S n) = drive_names n ++ ["Drive" +:+ to_string (N.of_nat n + 1)].
Proof. unfold drive_names. by rewrite seq_S, fmap_app. Qed.

Lemma drive_names_NoDup n : NoDup (drive_names n).
Proof.
  unfold drive_names. apply NoDup_fmap_2_strong; [|apply NoDup_seq].
  intros i j _ _ Heq. apply (inj (String.app "Drive")) in Heq.
  apply (inj pretty) in Heq. lia.
Qed.

End Lifecycle.

(** ** Names *)

Section Names.
Context `{!Platform}.

Lemma length_drive_names n : length (drive_names n) = n.
Proof. unfold drive_names. by rewrite length_fmap, length_seq. Qed.

Lemma add_drives_names (requests : list (N * DriveFormat)) m (k : nat) :
  names (self m) = drive_names k →
  ∃ m', add_drives requests m = Returned (tt, m')
        ∧ names (self m') = drive_names (k + length requests).
Proof.
  revert m k. induction requests as [|[size format] requests IH]; intros m k Hk.
  - exists m. split; [done|]. by rewrite Nat.add_0_r.
  - destruct (add_drive_names size format m) as (d & m1 & Hadd & Hd & Hnames & _).
    destruct (IH m1 (S k)) as (m' & Hrun & Hnames').
    { rewrite Hnames, Hd, drive_names_S, Hk. do 4 f_equal.
      unfold names in Hk. by rewrite <-(length_fmap m_name), Hk, length_drive_names. }
    exists m'. split; [|by rewrite Hnames'; f_equal; cbn; lia].
    unfold add_drives. cbn [for_each fst snd]. unfold mbind at 1, M_bind at 1.
    unfold mbind at 1, M_bind at 1. cbn [fst snd]. rewrite Hadd. exact Hrun.
Qed.

End Names.

(** ** The first line of a text *)

Lemma getline_no_newline (first : string) :
  newline ∉ String.list_ascii_of_string first → getline first = first.
Proof.
  induction first as [|c first IH]; [done|]. cbn.
  intros [Hc Hfirst]%not_elem_of_cons.
  rewrite decide_False by done. f_equal. by apply IH.
Qed.

Lemma getline_first_line (first rest : string) :
  newline ∉ String.list_ascii_of_string first →
  getline (first +:+ String newline rest) = first.
Proof.
  induction first as [|c first IH]; [done|].
  intros [Hc Hfirst]%not_elem_of_cons.
  change (getline (String c (first +:+ String newline rest)) = String c first).
  cbn [getline]. rewrite decide_False by done. f_equal. by apply IH.
Qed.

(** ** Provisioning and the backend *)

Section Provisioning.
Context `{!Platform}.

Lemma backend_calls_fmap {A} (f : A → Event) (l : list A) :
  (∀ x, is_backend_call (f x) = false) → backend_calls (f <$> l) = 0.
Proof.
  intros Hf. unfold backend_calls. induction l as [|x l IH]; [done|].
  cbn [fmap list_fmap]. rewrite filter_cons. specialize (Hf x).
  destruct (is_backend_call (f x)); [done|]. exact IH.
Qed.

Lemma backend_calls_update_events o : backend_calls (update_events o) = 0.
Proof.
  unfold update_events. rewrite app_comm_cons, backend_calls_app.
  change (EvLog ?msg :: ?l) with ([EvLog msg] ++ l).
  by rewrite backend_calls_app, backend_calls_fmap.
Qed.

Lemma backend_calls_rebuild_events lvs : backend_calls (rebuild_events lvs) = 1.
Proof. unfold rebuild_events. by rewrite backend_calls_app, backend_calls_fmap. Qed.

Lemma virtual_volumes_snoc lvs name size :
  virtual_volumes (lvs ++ [thin_volume name size])
  = virtual_volumes lvs ++ [thin_volume name size].
Proof. unfold virtual_volumes. by rewrite filter_app. Qed.

(** C6: [add_drive] partitions the new volume with the hint ntfs for
    WINDOWS, MAC and UNIVERSAL and ext3 for LINUX, binds it to the loopback
    mount, and then formats the first partition the mount script printed,
    that is its output up to the first line feed, with ntfs for WINDOWS,
    ext3 for LINUX and exfat for MAC and UNIVERSAL. *)
Theorem add_drive_formats (size : N) (format : DriveFormat) m (first rest : string) :
  newline ∉ String.list_ascii_of_string first →
  command_output ["sh "; config_getenv "PISO_SCRIPTS_PATH" +:+ "/vdrive.sh";
                  " mount-internal-basic "; next_name (self m)] = first
  ∨ command_output ["sh "; config_getenv "PISO_SCRIPTS_PATH" +:+ "/vdrive.sh";
                    " mount-internal-basic "; next_name (self m)]
    = first +:+ String newline rest →
  ∃ d m' tail,
    add_drive size format m = Returned (d, m')
    ∧ m_name d = next_name (self m)
    ∧ trace m' = trace m
        ++ [EvLog ["Adding new drive with size="; to_string size];
            EvLvmRun (lvcreate_args size (m_name d));
            EvRunCommand
              ["parted --script /dev/"; VOLUME_GROUP_NAME; "/"; m_name d;
               match format with
               | WINDOWS | MAC | UNIVERSAL =>
                   " \" +:+ String newline " mklabel msdos \"
                     +:+ String newline " mkpart primary ntfs 0% 100%"
               | LINUX =>
                   " \" +:+ String newline " mklabel msdos \"
                     +:+ String newline " mkpart primary ext3 0% 100%"
               end];
            EvRunCommand ["sh "; config_getenv "PISO_SCRIPTS_PATH" +:+ "/vdrive.sh";
                          " mount-internal-basic "; m_name d];
            EvRunCommand
              match format with
              | WINDOWS => ["mkfs.ntfs -f "; first]
              | LINUX => ["mkfs.ext3 "; first]
              | MAC | UNIVERSAL => ["mkfs.exfat "; first]
              end]
        ++ tail.
Proof.
  intros Hfirst Hout. do 2 eexists.
  exists (EvMountExternal (next_name (self m)) :: update_events (added (self m))).
  split; [apply add_drive_run|]. cbn [trace m_name]. split; [done|].
  assert (first_partition_of (next_name (self m)) = first) as Hpart.
  { unfold first_partition_of, mount_internal_args.
    destruct Hout as [-> | ->]; [by apply getline_no_newline|by apply getline_first_line]. }
  unfold add_events. rewrite Hpart. by destruct format.
Qed.

End Provisioning.

(** C1 as stated fails: the name of a deleted drive is given again.  After
    Drive1 was created and removed, the next drive is Drive1 once more. *)
Lemma name_reused_after_removal :
  ∃ d1 m1 m2 d2 m3,
    add_drive (H := demo_platform) 1000000000 LINUX demo_start = Returned (d1, m1)
    ∧ remove_drive (H := demo_platform) d1 m1 = Returned (tt, m2)
    ∧ names (self m2) = []
    ∧ add_drive (H := demo_platform) 2000000000 WINDOWS m2 = Returned (d2, m3)
    ∧ m_name d1 = "Drive1"
    ∧ m_name d2 = "Drive1".
Proof. do 5 eexists. split_and!; vm_compute; reflexivity. Qed.

(** ** The compositor *)

Section Render.
Context `{!Platform}.

Lemma render_item_run item bitmap o vs tr it :
  deref item o = Some it →
  render_item item bitmap (mkMachine o vs tr)
  = Returned
      (if decide ((GUIItem_render it).2 = FULLSCREEN)
       then Return (GUIItem_render it)
       else Continue (stack bitmap (GUIItem_render it).1),
       mkMachine o vs (tr ++ [EvRender item])).
Proof. intros Hit. unfold render_item. mstep. rewrite Hit. mstep. by case_decide. Qed.

Lemma reports_normal_Some o p :
  reports_normal o p = true →
  ∃ it, deref p o = Some it ∧ (GUIItem_render it).2 ≠ FULLSCREEN.
Proof.
  unfold reports_normal. destruct (deref p o) as [it|]; [|done].
  intros Hit%bool_decide_eq_true. by exists it.
Qed.

(** No item asks for the whole frame: the loop renders them all and ends
    with the canvas. *)
Lemma render_loop_normal items bitmap o vs tr :
  forallb (reports_normal o) items = true →
  render_loop items bitmap (mkMachine o vs tr)
  = Returned (Continue (canvas o items bitmap),
              mkMachine o vs (tr ++ (EvRender <$> items))).
Proof.
  revert bitmap tr. induction items as [|p items IH]; intros bitmap tr Hall.
  - cbn. by rewrite app_nil_r.
  - cbn in Hall. apply andb_prop in Hall as [Hp Hall].
    destruct (reports_normal_Some _ _ Hp) as (it & Hit & Hmode).
    cbn [render_loop]. unfold mbind, M_bind. rewrite (render_item_run _ _ _ _ _ _ Hit).
    rewrite decide_False by done. rewrite IH by done.
    cbn. rewrite Hit. by rewrite <-app_assoc.
Qed.

(** Item [k] is the first to ask for the whole frame: the loop renders the
    items up to [k] and returns what [k] drew. *)
Lemma render_loop_fullscreen pre k post it bitmap o vs tr :
  forallb (reports_normal o) pre = true →
  deref k o = Some it →
  (GUIItem_render it).2 = FULLSCREEN →
  render_loop (pre ++ k :: post) bitmap (mkMachine o vs tr)
  = Returned (Return (GUIItem_render it),
              mkMachine o vs (tr ++ (EvRender <$> pre) ++ [EvRender k])).
Proof.
  intros Hall Hk Hmode. revert bitmap tr.
  induction pre as [|p pre IH]; intros bitmap tr.
  - cbn [app render_loop]. unfold mbind, M_bind.
    rewrite (render_item_run _ _ _ _ _ _ Hk). by rewrite decide_True.
  - cbn in Hall. apply andb_prop in Hall as [Hp Hall].
    destruct (reports_normal_Some _ _ Hp) as (it' & Hit' & Hmode').
    cbn [app render_loop]. unfold mbind, M_bind.
    rewrite (render_item_run _ _ _ _ _ _ Hit'). rewrite decide_False by done.
    rewrite IH by done. cbn. by rewrite <-app_assoc.
Qed.

Lemma render_fullscreen_run m pre k post it :
  m_list_items (self m) = pre ++ k :: post →
  forallb (reports_normal (self m)) pre = true →
  deref k (self m) = Some it →
  (GUIItem_render it).2 = FULLSCREEN →
  render m
  = Returned (GUIItem_render it,
              mkMachine (self m) (volumes m)
                (trace m ++ [EvLog ["pISO::render()"]]
                   ++ (EvRender <$> pre) ++ [EvRender k])).
Proof.
  intros Hitems Hpre Hk Hmode. destruct m as [o vs tr]. cbn [self volumes trace] in *.
  unfold render. mstep. rewrite Hitems.
  rewrite (render_loop_fullscreen _ _ _ _ _ _ _ _ Hpre Hk Hmode).
  by rewrite <-app_assoc.
Qed.


(** C4: when item [k] reports FULLSCREEN and no item before it does,
    [render] returns what [k] drew, bitmap and mode, as it is: whatever the
    items before and after [k] are, none of their output is in it, the items
    after [k] are not even rendered, and the usage of the thin pool is not
    asked for. *)
Theorem render_fullscreen m pre k post it frame :
  m_list_items (self m) = pre ++ k :: post →
  forallb (reports_normal (self m)) pre = true →
  deref k (self m) = Some it →
  GUIItem_render it = (frame, FULLSCREEN) →
  ∃ m', render m = Returned ((frame, FULLSCREEN), m')
        ∧ self m' = self m
        ∧ trace m' = trace m ++ [EvLog ["pISO::render()"]]
                       ++ (EvRender <$> pre) ++ [EvRender k].
Proof.
  intros Hitems Hpre Hk Hframe.
  exists (mkMachine (self m) (volumes m)
            (trace m ++ [EvLog ["pISO::render()"]] ++ (EvRender <$> pre) ++ [EvRender k])).
  split; [|done].
  rewrite <-Hframe. apply (render_fullscreen_run _ _ _ _ _ Hitems Hpre Hk).
  by rewrite Hframe.
Qed.


End Render.


(** ** Reading numbers *)

Lemma digit_value_pretty_N_char (d : N) :
  (d < 10)%N → digit_value (pretty_N_char d) = Some d.
Proof.
  intros Hd.
  assert (d = 0 ∨ d = 1 ∨ d = 2 ∨ d = 3 ∨ d = 4 ∨ d = 5 ∨ d = 6 ∨ d = 7
          ∨ d = 8 ∨ d = 9)%N as Hcases by lia.
  by repeat (destruct Hcases as [->|Hcases]); [..|subst d].
Qed.

(** a decimal digit is neither white space nor a sign *)
Lemma digit_value_Some_plain (c : ascii) (d : N) :
  digit_value c = Some d →
  is_space c = false ∧ c ≠ "-"%char ∧ c ≠ "+"%char.
Proof.
  destruct c as [[] [] [] [] [] [] [] []]; cbn; intros [=]; by split_and!.
Qed.

(** Reading the digits that [pretty] printed for [x] appends them to what
    was read so far. *)
Lemma parse_digits_pretty_N_go (x : N) :
  ∃ k : N, ∀ acc s,
    parse_digits acc (pretty_N_go x s) = parse_digits (acc * 10 ^ k + x)%N s.
Proof.
  induction (N.lt_wf_0 x) as [x _ IH].
  destruct (decide (x = 0%N)) as [->|Hx].
  - exists 0%N. intros acc s. rewrite pretty_N_go_0. f_equal. lia.
  - destruct (IH (x `div` 10)%N) as [k Hk]; [apply N.div_lt; lia|].
    exists (k + 1)%N. intros acc s. rewrite pretty_N_go_step by lia.
    rewrite Hk. cbn [parse_digits].
    rewrite digit_value_pretty_N_char by (apply N.mod_lt; lia).
    f_equal. rewrite N.pow_add_r, N.pow_1_r.
    pose proof (N.div_mod x 10 ltac:(done)) as Hdiv.
    revert Hdiv. generalize (x `div` 10)%N (x `mod` 10)%N (10 ^ k)%N.
    intros q r p ->. ring.
Qed.

Lemma pretty_N_go_head (x : N) (s : string) :
  (0 < x)%N →
  ∃ c rest d, pretty_N_go x s = String c rest ∧ digit_value c = Some d.
Proof.
  revert s. induction (N.lt_wf_0 x) as [x _ IH]. intros s Hx.
  rewrite pretty_N_go_step by done.
  destruct (decide (x `div` 10 = 0)%N) as [->|Hdiv].
  - rewrite pretty_N_go_0. do 3 eexists. split; [done|].
    apply digit_value_pretty_N_char, N.mod_lt. lia.
  - apply IH; [apply N.div_lt; lia|by apply N.neq_0_lt_0].
Qed.

Lemma pretty_N_go_app (x : N) (s t : string) :
  pretty_N_go x s +:+ t = pretty_N_go x (s +:+ t).
Proof.
  revert s. induction (N.lt_wf_0 x) as [x _ IH]. intros s.
  destruct (decide (x = 0%N)) as [->|Hx]; [by rewrite !pretty_N_go_0|].
  rewrite (pretty_N_go_step x s), (pretty_N_go_step x (s +:+ t)) by lia.
  by rewrite IH by (apply N.div_lt; lia).
Qed.

Lemma to_string_head (n : N) (unit : string) :
  ∃ c rest d, to_string n +:+ unit = String c rest ∧ digit_value c = Some d.
Proof.
  unfold to_string, pretty, pretty_N. destruct (decide (n = 0%N)) as [->|Hn].
  - by exists "0"%char, unit, 0%N.
  - rewrite pretty_N_go_app. apply pretty_N_go_head. lia.
Qed.

Lemma parse_digits_to_string (n : N) (unit : string) :
  starts_with_digit unit = false →
  parse_digits 0 (to_string n +:+ unit) = n.
Proof.
  intros Hunit.
  assert (∀ acc, parse_digits acc unit = acc) as Hstop.
  { intros acc. destruct unit as [|c unit]; [done|]. cbn in *.
    destruct (digit_value c); [|done]. by apply bool_decide_eq_false in Hunit as []. }
  unfold to_string, pretty, pretty_N. destruct (decide (n = 0%N)) as [->|Hn].
  - change ("0" +:+ unit) with (String "0" unit). cbn. apply Hstop.
  - rewrite pretty_N_go_app. destruct (parse_digits_pretty_N_go n) as [k ->].
    cbn [String.app]. rewrite Hstop. lia.
Qed.

(** [stoull] reads back a size the backend printed in bytes. *)
Lemma stoull_to_string (n : N) (unit : string) m :
  (n < 2 ^ 64)%N →
  starts_with_digit unit = false →
  stoull (to_string n +:+ unit) m = Returned (n, m).
Proof.
  intros Hn Hunit.
  destruct (to_string_head n unit) as (c & rest & d & Hhead & Hc).
  destruct (digit_value_Some_plain _ _ Hc) as (Hspace & Hminus & Hplus).
  unfold stoull. rewrite Hhead. cbn [skip_spaces]. rewrite Hspace.
  rewrite !decide_False by done. cbn [starts_with_digit]. rewrite Hc.
  rewrite bool_decide_true by done.
  rewrite <-Hhead, parse_digits_to_string by done.
  apply N.ltb_lt in Hn. by rewrite Hn.
Qed.

Lemma stoull_range (s : string) m n m' :
  stoull s m = Returned (n, m') → (0 ≤ n < 2 ^ 64)%N.
Proof.
  unfold stoull.
  destruct (match skip_spaces s with
            | EmptyString => _ | String _ _ => _ end) as [negative s2].
  destruct (starts_with_digit s2); [|done].
  destruct (_ <? _)%N eqn:Hlt; [|done]. apply N.ltb_lt in Hlt.
  intros [= <- _]. split; [apply N.le_0_l|].
  destruct negative; [by apply N.mod_lt|done].
Qed.

(** ** Usage of the thin pool *)

Section Usage.
Context `{!Platform}.

Lemma thinpool_None lvs :
  thinpool lvs = None ↔ ∀ v, v ∈ lvs → lv_name v ≠ THINPOOL_NAME.
Proof.
  unfold thinpool. rewrite fmap_None, list_find_None, Forall_forall. done.
Qed.

(** the record of the thin pool is the first of that name in the report *)
Lemma thinpool_Some lvs pool :
  thinpool lvs = Some pool ↔
    ∃ before after,
      lvs = before ++ pool :: after
      ∧ lv_name pool = THINPOOL_NAME
      ∧ ∀ v, v ∈ before → lv_name v ≠ THINPOOL_NAME.
Proof.
  unfold thinpool. rewrite fmap_Some. split.
  - intros ([i v] & Hfind & ->). apply list_find_Some in Hfind as (Hi & Hname & Hfirst).
    exists (take i lvs), (drop (S i) lvs). cbn.
    split; [symmetry; by apply take_drop_middle|]. split; [done|].
    intros w (j & Hj)%list_elem_of_lookup.
    assert (j < i) as Hji.
    { apply lookup_lt_Some in Hj. rewrite length_take in Hj. lia. }
    rewrite lookup_take_lt in Hj by done. by eapply Hfirst.
  - intros (before & after & -> & Hname & Hbefore).
    exists (length before, pool). split; [|done].
    apply list_find_Some. split; [by rewrite list_lookup_middle|]. split; [done|].
    intros j w Hj Hlt. rewrite lookup_app_l in Hj by done.
    apply Hbefore, list_elem_of_lookup. by exists j.
Qed.

Lemma size_run m pool :
  thinpool (volumes m) = Some pool →
  size m = stoull (lv_size pool)
             (mkMachine (self m) (volumes m)
                (trace m ++ [EvLvsReport ["lv_size --units B"; THINPOOL_NAME]])).
Proof.
  unfold thinpool, size, lvm_lvs_report_of. intros Hpool. mstep.
  destruct (list_find _ _) as [[i v]|]; [|done]. by injection Hpool as ->.
Qed.

(** C8, as the code has it: [percent_used] is fatal when the report has
    no volume of the thin pool's name; otherwise it hands on what
    [std::stof] makes of the usage text the report gives for the thin pool,
    the number as it is, neither checked nor clamped, or the exception, and
    changes nothing.  [size] returns a number from 0 to 2^64 - 1, and it is
    the thin pool's size when the report gives it in bytes. *)
Theorem usage_queries m :
  ((∀ v, v ∈ volumes m → lv_name v ≠ THINPOOL_NAME) →
     percent_used m = Fatal ["pISO: unable to locate thinpool"])
  ∧ (∀ pool f,
       thinpool (volumes m) = Some pool →
       stof (data_percent pool) = Parsed f →
       ∃ m', percent_used m = Returned (f, m')
             ∧ self m' = self m ∧ volumes m' = volumes m)
  ∧ (∀ pool,
       thinpool (volumes m) = Some pool →
       (stof (data_percent pool) = InvalidArgument →
          percent_used m = Threw "invalid_argument")
       ∧ (stof (data_percent pool) = OutOfRange →
          percent_used m = Threw "out_of_range"))
  ∧ (∀ p m',
       percent_used m = Returned (p, m') →
       ∃ pool, thinpool (volumes m) = Some pool ∧ stof (data_percent pool) = Parsed p)
  ∧ (∀ n m', size m = Returned (n, m') → (0 ≤ n < 2 ^ 64)%N)
  ∧ (∀ pool n,
       thinpool (volumes m) = Some pool →
       lv_size pool = to_string n +:+ "B" →
       (n < 2 ^ 64)%N →
       ∃ m', size m = Returned (n, m')
             ∧ self m' = self m ∧ volumes m' = volumes m).
Proof.
  split_and!.
  - intros Hnone%thinpool_None. by rewrite percent_used_run, Hnone.
  - intros pool f Hpool Hf. eexists.
    split; [by rewrite percent_used_run, Hpool, Hf|done].
  - intros pool Hpool. split; intros Hf; by rewrite percent_used_run, Hpool, Hf.
  - intros p m'. rewrite percent_used_run.
    destruct (thinpool (volumes m)) as [pool|]; [|done].
    destruct (stof (data_percent pool)) as [f| |] eqn:Hf; [|done..].
    intros [= <- _]. by exists pool.
  - intros n m'. unfold size, lvm_lvs_report_of. mstep.
    destruct (list_find _ _) as [[i v]|]; [|done]. apply stoull_range.
  - intros pool n Hpool Hsize Hn. eexists.
    split; [by rewrite (size_run _ _ Hpool), Hsize, stoull_to_string|done].
Qed.

End Usage.

(** ** The theorems at work on the concrete platform *)

(** The scenario of the spec: Drive1 is removed when only Drive2 exists;
    then Drive2 itself is removed. *)
Lemma remove_drive_cases_witness :
  (∃ m', remove_drive (H := demo_platform) (VirtualDrive_new (H := demo_platform) "Drive1") demo_drive2
         = Returned (tt, m')
         ∧ self m' = self demo_drive2
         ∧ volumes m' = volumes demo_drive2
         ∧ backend_calls (trace m') = backend_calls (trace demo_drive2))
  ∧ (∃ i d m1 m',
       m_drives (self demo_drive2) !! i = Some d
       ∧ m_name d = "Drive2"
       ∧ remove_drive (H := demo_platform) (VirtualDrive_new (H := demo_platform) "Drive2") demo_drive2
         = update_list_items m1
       ∧ remove_drive (H := demo_platform) (VirtualDrive_new (H := demo_platform) "Drive2") demo_drive2
         = Returned (tt, m')).
Proof.
  split.
  - destruct (proj1 (remove_drive_cases (H := demo_platform)
                       (VirtualDrive_new (H := demo_platform) "Drive1") demo_drive2))
      as (m' & Hrun & Hself & Hvols & Hcalls & _).
    { apply (bool_decide_unpack _). vm_compute. exact I. }
    exists m'. exact (conj Hrun (conj Hself (conj Hvols Hcalls))).
  - destruct (proj2 (remove_drive_cases (H := demo_platform)
                       (VirtualDrive_new (H := demo_platform) "Drive2") demo_drive2))
      as (i & d & m1 & m' & Hi & Hd & _ & _ & _ & Hrebuild & Hrun & _).
    { apply (bool_decide_unpack _). vm_compute. exact I. }
    exists i, d, m1, m'. exact (conj Hi (conj Hd (conj Hrebuild Hrun))).
Defined.

Lemma render_fullscreen_witness :
  ∃ m', render (H := demo_platform) demo_fullscreen
        = Returned ((Bitmap.create 100 50, FULLSCREEN), m')
        ∧ self m' = self demo_fullscreen
        ∧ trace m' = [EvLog ["pISO::render()"]; EvRender (PtrDrive 0); EvRender PtrNewDrive].
Proof.
  apply (render_fullscreen (H := demo_platform) demo_fullscreen
           [PtrDrive 0] PtrNewDrive [PtrOptions]
           (ItemNewDrive (mkNewDrive true)) (Bitmap.create 100 50));
    vm_compute; reflexivity.
Defined.


Lemma usage_queries_witness :
  percent_used (H := demo_platform) (boot []) = Fatal ["pISO: unable to locate thinpool"]
  ∧ (∃ m', percent_used (H := demo_platform) demo_start
           = Returned (Finite (85 # 2)%Q, m'))
  ∧ (∃ m', size (H := demo_platform) demo_start = Returned (1073741824%N, m')).
Proof.
  split_and!.
  - apply (proj1 (usage_queries (H := demo_platform) (boot []))).
    by intros v ?%elem_of_nil.
  - destruct (proj1 (proj2 (usage_queries (H := demo_platform) demo_start))
                demo_pool (Finite (85 # 2)%Q)) as (m' & Hrun & _);
      [vm_compute; reflexivity..|].
    exists m'. exact Hrun.
  - destruct (proj2 (proj2 (proj2 (proj2 (proj2 (usage_queries (H := demo_platform) demo_start)))))
                demo_pool 1073741824%N) as (m' & Hrun & _);
      [vm_compute; reflexivity..|].
    exists m'. exact Hrun.
Defined.

(** C8 as stated fails: [percent_used] does not keep what it returns within
    0 and 100.  On a report that gives 150.00 for the thin pool it returns
    150. *)
Lemma percent_used_above_100 :
  ∃ m', percent_used (H := demo_platform) demo_overfull
        = Returned (Finite (150 # 1)%Q, m')
        ∧ ¬ (150 # 1 <= 100)%Q.
Proof. eexists. split; [vm_compute; reflexivity|]. by vm_compute. Qed.

Lemma menu_never_empty_witness :
  reachable (H := demo_platform) demo_start
  ∧ m_list_items (self demo_start) ≠ []
  ∧ has_selection (self demo_start) = true.
Proof.
  assert (reachable (H := demo_platform) demo_start) as Hreach.
  { apply (reachable_new [demo_pool]). vm_compute. reflexivity. }
  destruct (proj2 (menu_never_empty (H := demo_platform)) demo_start Hreach)
    as (Hitems & Hsel & _).
  exact (conj Hreach (conj Hitems Hsel)).
Defined.

(** * Further properties of piso.cpp *)

(** ** The list rebuild, once more *)

Lemma focus_first_idemp ds : focus_first (focus_first ds) = focus_first ds.
Proof.
  destruct ds as [|d ds]; [done|]. cbn. f_equal.
  rewrite <-list_fmap_compose. by apply list_fmap_ext.
Qed.

Lemma rebuilt_idemp o : rebuilt (rebuilt o) = rebuilt o.
Proof.
  unfold rebuilt at 1. cbn [rebuilt m_drives]. rewrite focus_first_idemp.
  unfold rebuilt. f_equal.
  - destruct (m_drives o); by cbn.
  - unfold menu_items. cbn. by rewrite length_focus_first.
Qed.

(** X1: [update_list_items] does not read the item list and the cursor it
    replaces: whatever they hold, stale pointers and a cursor past the end
    included, it returns, and with the same result. *)
Theorem update_list_items_ignores_old_list m (items : list GUIItemPtr) (sel : nat) :
  ∃ m',
    update_list_items m = Returned (tt, m')
    ∧ update_list_items
        (mkMachine (set_selection sel (set_list_items items (self m)))
                   (volumes m) (trace m))
      = Returned (tt, m').
Proof.
  eexists. split; [apply update_list_items_run|].
  by rewrite update_list_items_run.
Qed.

(** X2: [update_list_items] changes the focus flags, the item list and the
    cursor, and nothing else: the drives keep their number, order, names
    and mount states, the backend is not called, and calling it a second
    time leaves the object as the first call left it. *)
Theorem update_list_items_frame m :
  ∃ m1 m2,
    update_list_items m = Returned (tt, m1)
    ∧ names (self m1) = names (self m)
    ∧ m_mount_state <$> m_drives (self m1) = m_mount_state <$> m_drives (self m)
    ∧ volumes m1 = volumes m
    ∧ backend_calls (trace m1) = backend_calls (trace m)
    ∧ update_list_items m1 = Returned (tt, m2)
    ∧ self m2 = self m1.
Proof.
  do 2 eexists. split; [apply update_list_items_run|]. cbn [self volumes trace].
  split; [apply names_focus_first|]. split; [apply mount_states_focus_first|].
  split; [done|].
  split; [by rewrite backend_calls_app, backend_calls_update_events, Nat.add_0_r|].
  split; [apply update_list_items_run|]. cbn [self]. apply rebuilt_idemp.
Qed.

Section RebuildAgain.
Context `{!Platform}.

(** X3: [rebuild_drives_from_volumes] forgets what the object knew: the
    drives, the item list and the cursor after it are determined by the
    report of the backend alone, and the backend is asked once and not
    changed. *)
Theorem rebuild_depends_on_backend_only m1 m2 :
  volumes m1 = volumes m2 →
  ∃ m1' m2',
    rebuild_drives_from_volumes m1 = Returned (tt, m1')
    ∧ rebuild_drives_from_volumes m2 = Returned (tt, m2')
    ∧ m_drives (self m1') = m_drives (self m2')
    ∧ m_list_items (self m1') = m_list_items (self m2')
    ∧ m_selection (self m1') = m_selection (self m2')
    ∧ volumes m1' = volumes m1
    ∧ backend_calls (trace m1') = backend_calls (trace m1) + 1.
Proof.
  intros Hvols. do 2 eexists.
  split; [apply rebuild_drives_from_volumes_run|].
  split; [apply rebuild_drives_from_volumes_run|]. cbn [self volumes trace].
  rewrite Hvols. split; [done|]. split; [done|]. split; [done|].
  split; [done|].
  rewrite !backend_calls_app, backend_calls_rebuild_events,
    backend_calls_update_events. lia.
Qed.

(** X4: when the report has no virtual volume, be it empty, a rebuild from
    the backend leaves a menu of the two actions, with the cursor and the
    focus on the new-drive action. *)
Theorem rebuild_without_virtual_volumes m :
  virtual_volumes (volumes m) = [] →
  ∃ m',
    rebuild_drives_from_volumes m = Returned (tt, m')
    ∧ m_drives (self m') = []
    ∧ m_list_items (self m') = [PtrNewDrive; PtrOptions]
    ∧ m_selection (self m') = 0
    ∧ nd_focus (m_newdrive (self m')) = true
    ∧ opt_focus (m_options (self m')) = false.
Proof.
  intros Hnone. eexists. split; [apply rebuild_drives_from_volumes_run|].
  cbn [self]. unfold rebuilt, menu_items. cbn. by rewrite Hnone.
Qed.

End RebuildAgain.

Lemma rebuild_without_virtual_volumes_witness :
  ∃ m',
    rebuild_drives_from_volumes (H := demo_platform) (boot [demo_pool]) = Returned (tt, m')
    ∧ m_list_items (self m') = [PtrNewDrive; PtrOptions]
    ∧ nd_focus (m_newdrive (self m')) = true.
Proof.
  destruct (rebuild_without_virtual_volumes (H := demo_platform) (boot [demo_pool]))
    as (m' & Hrun & _ & Hitems & _ & Hfocus & _); [vm_compute; reflexivity|].
  exists m'. exact (conj Hrun (conj Hitems Hfocus)).
Defined.

Lemma rebuild_depends_on_backend_only_witness :
  ∃ m1' m2',
    rebuild_drives_from_volumes (H := demo_platform) demo_drive2 = Returned (tt, m1')
    ∧ rebuild_drives_from_volumes (H := demo_platform) (boot (volumes demo_drive2)) = Returned (tt, m2')
    ∧ m_drives (self m1') = m_drives (self m2').
Proof.
  destruct (rebuild_depends_on_backend_only (H := demo_platform) demo_drive2 (boot (volumes demo_drive2)))
    as (m1' & m2' & Hrun1 & Hrun2 & Hdrives & _); [reflexivity|].
  exists m1', m2'. exact (conj Hrun1 (conj Hrun2 Hdrives)).
Defined.

(** ** Adding and removing drives, once more *)

Lemma list_fmap_delete {A B} (f : A → B) (i : nat) (l : list A) :
  f <$> delete i l = delete i (f <$> l).
Proof.
  revert i. induction l as [|x l IH]; intros [|i]; cbn; [done..|].
  by rewrite <-IH.
Qed.

Lemma filter_ne_absent {A} `{EqDecision A} (l : list A) (x : A) :
  x ∉ l → filter (λ y, y ≠ x) l = l.
Proof.
  induction l as [|y l IH]; [done|]. intros [Hy Hl]%not_elem_of_cons.
  rewrite filter_cons, decide_True by done. f_equal. by apply IH.
Qed.

Lemma filter_ne_delete {A} `{EqDecision A} (l : list A) (i : nat) (x : A) :
  NoDup l → l !! i = Some x → filter (λ y, y ≠ x) l = delete i l.
Proof.
  revert i. induction l as [|y l IH]; intros i Hnodup Hi; [done|].
  apply NoDup_cons in Hnodup as [Hy Hnodup]. rewrite filter_cons.
  destruct i as [|i]; cbn in Hi.
  - injection Hi as ->. rewrite decide_False by (by intros []).
    cbn. by apply filter_ne_absent.
  - rewrite decide_True.
    + cbn. f_equal. by apply IH.
    + intros ->. apply Hy, list_elem_of_lookup. by exists i.
Qed.

Lemma lookup_snoc_fresh {A} (l : list A) (x : A) (i : nat) :
  x ∉ l → (l ++ [x]) !! i = Some x → i = length l.
Proof.
  intros Hx [Hi|[Hlen Hi]]%lookup_app_Some.
  - destruct Hx. apply list_elem_of_lookup. by exists i.
  - destruct (i - length l) as [|k] eqn:Hk; [lia|by destruct k].
Qed.

Lemma delete_snoc {A} (l : list A) (x : A) : delete (length l) (l ++ [x]) = l.
Proof. induction l as [|y l IH]; [done|]. cbn. f_equal. exact IH. Qed.

Lemma not_elem_of_delete_NoDup {A} (l : list A) (i : nat) (x : A) :
  NoDup l → l !! i = Some x → x ∉ delete i l.
Proof.
  revert i. induction l as [|y l IH]; intros i Hnodup Hi; [done|].
  apply NoDup_cons in Hnodup as [Hy Hnodup]. destruct i as [|i]; cbn in *.
  - by injection Hi as ->.
  - apply not_elem_of_cons. split; [|by apply IH].
    intros ->. apply Hy, list_elem_of_lookup. by exists i.
Qed.

Lemma backend_events_update_events o :
  filter (λ e, is_backend_call e) (update_events o) = [].
Proof. apply nil_length_inv, backend_calls_update_events. Qed.

Section Drives.
Context `{!Platform}.

(** X5: [add_drive] appends: the drives that were there keep their slot,
    name and mount state; the new one is the last, mounted externally; the
    cursor goes back to the first element, so the new drive has the focus
    only when it is the only drive. *)
Theorem add_drive_frame (size : N) (format : DriveFormat) m :
  ∃ d m',
    add_drive size format m = Returned (d, m')
    ∧ length (m_drives (self m')) = S (length (m_drives (self m)))
    ∧ (∀ i d0, m_drives (self m) !! i = Some d0 →
         ∃ d1, m_drives (self m') !! i = Some d1
               ∧ m_name d1 = m_name d0
               ∧ m_mount_state d1 = m_mount_state d0)
    ∧ last (m_drives (self m')) = Some d
    ∧ m_mount_state d = MOUNTED_EXTERNAL
    ∧ m_selection (self m') = 0
    ∧ (m_focus d = true ↔ m_drives (self m) = []).
Proof.
  do 2 eexists. split; [apply add_drive_run|]. cbn [self].
  cbn [rebuilt added set_drives m_drives m_selection].
  split; [by rewrite length_focus_first, length_app, Nat.add_1_r|].
  split; [|split; [apply last_focus_first|]].
  - intros i d0 Hi. rewrite focus_first_lookup, (lookup_app_l_Some _ _ _ _ Hi).
    by eexists.
  - split; [done|]. split; [done|]. cbn. apply bool_decide_eq_true.
Qed.

(** X6: the calls [add_drive] makes to the backend and the shell are, in
    this order, the volume creation, the partitioning, the loopback mount,
    the formatting and the external mount; it never asks for the report and
    never deletes a volume. *)
Theorem add_drive_backend_calls (size : N) (format : DriveFormat) m :
  ∃ d m' events,
    add_drive size format m = Returned (d, m')
    ∧ trace m' = trace m ++ events
    ∧ filter (λ e, is_backend_call e) events
      = [EvLvmRun (lvcreate_args size (m_name d));
         EvRunCommand (parted_command (m_name d) (partition_hint format));
         EvRunCommand (mount_internal_args (m_name d));
         EvRunCommand (mkfs_command format (first_partition_of (m_name d)));
         EvMountExternal (m_name d)].
Proof.
  do 3 eexists. split; [apply add_drive_run|]. cbn [trace m_name].
  split; [done|]. by rewrite filter_app, backend_events_update_events.
Qed.

Lemma remove_drive_erases_first (drive : VirtualDrive) m :
  m_name drive ∈ names (self m) →
  ∃ i m',
    remove_drive drive m = Returned (tt, m')
    ∧ names (self m) !! i = Some (m_name drive)
    ∧ (∀ j, j < i → names (self m) !! j ≠ Some (m_name drive))
    ∧ names (self m') = delete i (names (self m))
    ∧ m_mount_state <$> m_drives (self m') = delete i (m_mount_state <$> m_drives (self m))
    ∧ m_selection (self m') = 0.
Proof.
  intros (i & d & Hfind & Hd & Hname)%list_find_name_Some.
  exists i. eexists. split; [exact (remove_drive_present _ _ _ _ Hfind)|].
  cbn [self]. unfold names. cbn [rebuilt erased set_drives m_drives m_selection].
  rewrite names_focus_first, mount_states_focus_first, !list_fmap_delete.
  rewrite list_lookup_fmap, Hd. cbn. rewrite Hname.
  split; [done|]. split; [|done].
  intros j Hj. rewrite list_lookup_fmap.
  destruct (m_drives (self m) !! j) as [d'|] eqn:Hd'; [|done]. cbn.
  apply list_find_Some in Hfind as (_ & _ & Hfirst).
  intros [= Heq]. apply (Hfirst j d' Hd' Hj). by apply bool_decide_pack.
Qed.

(** X8: [remove_drive] erases the first drive of that name and no other:
    the names and mount states of the rest stay, in their order, and the
    cursor goes back to the first element. *)
Theorem remove_drive_first_occurrence (drive : VirtualDrive) m :
  m_name drive ∈ names (self m) →
  ∃ i m',
    remove_drive drive m = Returned (tt, m')
    ∧ names (self m) !! i = Some (m_name drive)
    ∧ (∀ j, j < i → names (self m) !! j ≠ Some (m_name drive))
    ∧ names (self m') = delete i (names (self m))
    ∧ m_mount_state <$> m_drives (self m') = delete i (m_mount_state <$> m_drives (self m))
    ∧ m_selection (self m') = 0.
Proof. apply remove_drive_erases_first. Qed.

(** X9: while the live names are all different, removing the same drive
    once more is the warning and nothing else: the object and the backend
    stay as the first removal left them. *)
Theorem remove_drive_twice (drive : VirtualDrive) m :
  NoDup (names (self m)) →
  ∃ m1 m2,
    remove_drive drive m = Returned (tt, m1)
    ∧ remove_drive drive m1 = Returned (tt, m2)
    ∧ self m2 = self m1
    ∧ volumes m2 = volumes m1
    ∧ backend_calls (trace m2) = backend_calls (trace m1).
Proof.
  intros Hnodup.
  assert (∃ m1, remove_drive drive m = Returned (tt, m1)
                ∧ m_name drive ∉ names (self m1)) as (m1 & Hrun & Hgone).
  { destruct (decide (m_name drive ∈ names (self m))) as [Hin|Hnotin].
    - destruct (remove_drive_erases_first _ _ Hin)
        as (i & m1 & Hrun & Hi & _ & Hnames & _).
      exists m1. split; [done|]. rewrite Hnames.
      by apply not_elem_of_delete_NoDup.
    - apply list_find_name_None in Hnotin as Hfind.
      eexists. split; [exact (remove_drive_absent _ _ Hfind)|]. done. }
  apply list_find_name_None in Hgone.
  exists m1. eexists. split; [done|].
  split; [exact (remove_drive_absent _ _ Hgone)|]. cbn [self volumes trace].
  split; [done|]. split; [done|].
  rewrite backend_calls_app. exact (Nat.add_0_r _).
Qed.

(** X10: a drive that is added and removed right away leaves the names and
    the mount states of the drives as they were, provided its name was not
    taken. *)
Theorem add_then_remove_drive (size : N) (format : DriveFormat) m :
  next_name (self m) ∉ names (self m) →
  ∃ d m1 m2,
    add_drive size format m = Returned (d, m1)
    ∧ remove_drive d m1 = Returned (tt, m2)
    ∧ names (self m2) = names (self m)
    ∧ m_mount_state <$> m_drives (self m2) = m_mount_state <$> m_drives (self m).
Proof.
  intros Hfresh.
  destruct (add_drive_names size format m) as (d & m1 & Hadd & Hd & Hnames & Hlast).
  assert (m_mount_state <$> m_drives (self m1)
          = (m_mount_state <$> m_drives (self m)) ++ [MOUNTED_EXTERNAL]) as Hstates.
  { rewrite add_drive_run in Hadd. injection Hadd as _ <-. cbn [self].
    cbn [rebuilt added set_drives m_drives].
    by rewrite mount_states_focus_first, fmap_app. }
  assert (m_name d = next_name (self m)) as Hnext by done.
  assert (m_name d ∈ names (self m1)) as Hin.
  { rewrite Hnames. apply elem_of_app. right. by apply list_elem_of_singleton. }
  destruct (remove_drive_erases_first _ _ Hin)
    as (i & m2 & Hremove & Hi & _ & Hnames2 & Hstates2 & _).
  exists d, m1, m2. split; [done|]. split; [done|].
  rewrite Hnames in Hi. apply lookup_snoc_fresh in Hi as ->; [|by rewrite Hnext].
  rewrite Hnames2, Hnames, Hstates2, Hstates.
  split; [apply delete_snoc|].
  unfold names. rewrite length_fmap, <-(length_fmap m_mount_state). apply delete_snoc.
Qed.

Lemma backend_events_rebuild_events lvs :
  filter (λ e, is_backend_call e) (rebuild_events lvs) = [EvLvsReport []].
Proof.
  unfold rebuild_events. cbn [app]. rewrite filter_cons_False by (cbn; auto).
  rewrite filter_cons_True by done. f_equal.
  apply nil_length_inv. by apply (backend_calls_fmap (λ v, EvLog _)).
Qed.

(** X23: [add_drive] returns the new drive mounted externally.  A rebuild
    from the backend that follows lists a drive of the same name; it asks
    the backend for the report and calls nothing else, no mount either, so
    every drive it lists is in the state its constructor left it in. *)
Theorem add_drive_then_rebuild (size : N) (format : DriveFormat) m :
  ∃ d m1 m2 events,
    add_drive size format m = Returned (d, m1)
    ∧ m_mount_state d = MOUNTED_EXTERNAL
    ∧ last (m_drives (self m1)) = Some d
    ∧ rebuild_drives_from_volumes m1 = Returned (tt, m2)
    ∧ (∃ d', d' ∈ m_drives (self m2) ∧ m_name d' = m_name d)
    ∧ m_mount_state <$> m_drives (self m2)
      = constructed_mount_state <$> names (self m2)
    ∧ trace m2 = trace m1 ++ events
    ∧ filter (λ e, is_backend_call e) events = [EvLvsReport []].
Proof.
  do 4 eexists. split; [apply add_drive_run|]. split; [done|].
  split; [cbn; apply last_focus_first|].
  split; [apply rebuild_drives_from_volumes_run|]. cbn [self volumes trace].
  rewrite virtual_volumes_snoc, fmap_app. cbn [fmap list_fmap compose lv_name thin_volume].
  split_and!.
  - assert (next_name (self m)
            ∈ m_name <$> m_drives (rebuilt (set_drives
                 ((VirtualDrive_new ∘ lv_name <$> virtual_volumes (volumes m))
                    ++ [VirtualDrive_new (next_name (self m))])
                 (rebuilt (added (self m)))))) as Hin.
    { cbn. rewrite names_focus_first, fmap_app.
      apply elem_of_app. right. by apply list_elem_of_singleton. }
    apply list_elem_of_fmap in Hin as (d' & ? & ?). by exists d'.
  - unfold names. cbn [rebuilt set_drives m_drives].
    rewrite mount_states_focus_first, names_focus_first, <-list_fmap_compose.
    apply list_fmap_ext. intros ? d' Hd'.
    apply list_elem_of_lookup_2, elem_of_app in Hd' as [Hd'|Hd'].
    + by apply list_elem_of_fmap in Hd' as (v & -> & _).
    + by apply list_elem_of_singleton in Hd' as ->.
  - reflexivity.
  - rewrite filter_app, backend_events_rebuild_events, backend_events_update_events.
    done.
Qed.

End Drives.

(** ** Names and the backend, once more *)

Lemma list_filter_fmap {A B} (f : A → B) (P : B → Prop) `{!∀ y, Decision (P y)}
    (l : list A) :
  filter P (f <$> l) = f <$> filter (P ∘ f) l.
Proof.
  induction l as [|x l IH]; [done|]. cbn [fmap list_fmap].
  rewrite !filter_cons, IH. cbn. by case_decide.
Qed.

Lemma virtual_volumes_filter_name (x : string) (vols : list Volume) :
  lv_name <$> virtual_volumes (filter (λ v, lv_name v ≠ x) vols)
  = filter (λ y, y ≠ x) (lv_name <$> virtual_volumes vols).
Proof.
  rewrite list_filter_fmap. f_equal. unfold virtual_volumes.
  rewrite !list_filter_filter. apply list_filter_iff. intros v. cbn. tauto.
Qed.

Lemma drive_names_lookup (n i : nat) :
  i < n → drive_names n !! i = Some ("Drive" +:+ to_string (N.of_nat i + 1)).
Proof.
  intros Hi. unfold drive_names. by rewrite list_lookup_fmap, lookup_seq_lt.
Qed.

Section NamesAgain.
Context `{!Platform}.

(** X7: the device [add_drive] formats is what the mount script printed
    before its first line feed, or all of it when there is none; when the
    script prints nothing, the formatting runs with an empty device. *)
Theorem add_drive_formats_first_line (size : N) (format : DriveFormat) m
    (first rest : string) :
  newline ∉ String.list_ascii_of_string first →
  command_output (mount_internal_args (next_name (self m))) = first
  ∨ command_output (mount_internal_args (next_name (self m)))
    = first +:+ String newline rest →
  ∃ d m',
    add_drive size format m = Returned (d, m')
    ∧ EvRunCommand (mkfs_command format first) ∈ trace m'.
Proof.
  intros Hfirst Hout. do 2 eexists. split; [apply add_drive_run|]. cbn [trace].
  assert (first_partition_of (next_name (self m)) = first) as Hpart.
  { unfold first_partition_of.
    destruct Hout as [-> | ->]; [by apply getline_no_newline|by apply getline_first_line]. }
  apply elem_of_app. right. apply elem_of_app. left.
  unfold add_events. rewrite Hpart. rewrite !elem_of_cons. tauto.
Qed.

(** After any drive but the last of Drive1, ..., Drive<n> is removed, the
    name of the next drive is Drive<n>, which is still there. *)
Lemma remove_inner_next_name (drive : VirtualDrive) m (n i : nat) :
  names (self m) = drive_names n →
  S i < n →
  m_name drive = "Drive" +:+ to_string (N.of_nat i + 1) →
  ∃ m1,
    remove_drive drive m = Returned (tt, m1)
    ∧ names (self m1) = delete i (drive_names n)
    ∧ next_name (self m1) = "Drive" +:+ to_string (N.of_nat n)
    ∧ next_name (self m1) ∈ names (self m1).
Proof.
  intros Hdense Hi Hdrive.
  assert (drive_names n !! i = Some (m_name drive)) as Hith.
  { rewrite Hdrive. apply drive_names_lookup. lia. }
  assert (m_name drive ∈ names (self m)) as Hin.
  { rewrite Hdense. apply list_elem_of_lookup. by exists i. }
  destruct (remove_drive_erases_first _ _ Hin) as (i' & m1 & Hrun & Hi' & _ & Hnames & _).
  rewrite Hdense in Hi', Hnames.
  assert (i' = i) as -> by (by eapply NoDup_lookup; [apply drive_names_NoDup|..]).
  exists m1. split; [done|]. split; [done|].
  assert (next_name (self m1) = "Drive" +:+ to_string (N.of_nat n)) as Hnext.
  { unfold next_name. rewrite <-(length_fmap m_name). fold (names (self m1)).
    rewrite Hnames, length_delete, length_drive_names by (by eexists).
    do 2 f_equal. lia. }
  split; [done|]. rewrite Hnext, Hnames. apply list_elem_of_lookup.
  exists (n - 2). rewrite list_lookup_delete_ge by lia.
  rewrite drive_names_lookup by lia. do 3 f_equal. lia.
Qed.

(** X12: after any drive but the last of Drive1, ..., Drive<n> is removed,
    the name [add_drive] derives from the count for the next drive is
    Drive<n>, the name of a drive that is still live. *)
Theorem remove_inner_then_next_name_is_live (drive : VirtualDrive) m (n i : nat) :
  names (self m) = drive_names n →
  S i < n →
  m_name drive = "Drive" +:+ to_string (N.of_nat i + 1) →
  ∃ m1,
    remove_drive drive m = Returned (tt, m1)
    ∧ names (self m1) = delete i (drive_names n)
    ∧ next_name (self m1) = "Drive" +:+ to_string (N.of_nat n)
    ∧ next_name (self m1) ∈ names (self m1).
Proof. apply remove_inner_next_name. Qed.

(** X13: removing the last of Drive1, ..., Drive<k+1> leaves Drive1, ...,
    Drive<k>: used as a stack, the drive set never has two drives of a
    name. *)
Theorem remove_last_keeps_names_dense (drive : VirtualDrive) m (k : nat) :
  names (self m) = drive_names (S k) →
  m_name drive = "Drive" +:+ to_string (N.of_nat k + 1) →
  ∃ m', remove_drive drive m = Returned (tt, m')
        ∧ names (self m') = drive_names k.
Proof.
  intros Hdense Hdrive.
  assert (drive_names (S k) !! k = Some (m_name drive)) as Hkth.
  { rewrite Hdrive. apply drive_names_lookup. lia. }
  assert (m_name drive ∈ names (self m)) as Hin.
  { rewrite Hdense. apply list_elem_of_lookup. by exists k. }
  destruct (remove_drive_erases_first _ _ Hin) as (i & m' & Hrun & Hi & _ & Hnames & _).
  rewrite Hdense in Hi, Hnames.
  assert (i = k) as -> by (by eapply NoDup_lookup; [apply drive_names_NoDup|..]).
  exists m'. split; [done|]. rewrite Hnames, drive_names_S.
  rewrite <-(length_drive_names k) at 1. apply delete_snoc.
Qed.

Lemma rebuild_names m :
  ∃ m', rebuild_drives_from_volumes m = Returned (tt, m')
        ∧ names (self m') = lv_name <$> virtual_volumes (volumes m)
        ∧ volumes m' = volumes m.
Proof.
  eexists. split; [apply rebuild_drives_from_volumes_run|].
  cbn [self volumes]. unfold names. cbn [rebuilt set_drives m_drives].
  by rewrite names_focus_first, <-list_fmap_compose.
Qed.

Lemma add_drive_backed (size : N) (format : DriveFormat) m :
  backed m →
  ∃ d m', add_drive size format m = Returned (d, m')
          ∧ names (self m') = names (self m) ++ [next_name (self m)]
          ∧ backed m'.
Proof.
  intros Hbacked. do 2 eexists. split; [apply add_drive_run|].
  cbn [self volumes]. unfold backed, names in *. cbn [self volumes rebuilt added set_drives m_drives].
  rewrite names_focus_first, !fmap_app. split; [done|].
  intros name [Hold|Hnew]%elem_of_app; apply elem_of_app; [left; by apply Hbacked|by right].
Qed.

Lemma remove_drive_backed (drive : VirtualDrive) m :
  backed m → NoDup (names (self m)) →
  ∃ m', remove_drive drive m = Returned (tt, m')
        ∧ backed m' ∧ NoDup (names (self m')).
Proof.
  intros Hbacked Hnodup.
  destruct (list_find (λ d, VirtualDrive_eqb d drive) (m_drives (self m)))
    as [[i d]|] eqn:Hfind.
  - eexists. split; [exact (remove_drive_present _ _ _ _ Hfind)|].
    apply list_find_Some in Hfind as (Hi & Heq%bool_decide_unpack & _).
    assert (names (self m) !! i = Some (m_name drive)) as Hith.
    { unfold names. by rewrite list_lookup_fmap, Hi, <-Heq. }
    unfold backed, names in *. cbn [self volumes rebuilt erased set_drives m_drives].
    rewrite names_focus_first, list_fmap_delete, lvm_effect_lvremove. split.
    + intros name Hname.
      assert (name ≠ m_name drive) as Hne.
      { intros ->. by eapply not_elem_of_delete_NoDup. }
      assert (name ∈ m_name <$> m_drives (self m)) as Hin.
      { eapply elem_of_sublist; [exact Hname|apply sublist_delete]. }
      apply Hbacked, list_elem_of_fmap in Hin as (v & -> & Hv).
      apply list_elem_of_fmap. exists v. split; [done|].
      by apply list_elem_of_filter.
    + eapply sublist_NoDup; [exact Hnodup|apply sublist_delete].
  - eexists. split; [exact (remove_drive_absent _ _ Hfind)|]. done.
Qed.

Lemma carried_out_invariant m :
  carried_out m → NoDup (names (self m)) ∧ backed m.
Proof.
  induction 1 as [vols m Hvols Hnew|size format m d m' _ [Hnodup Hbacked] Hfresh Hadd
                 |drive m m' _ [Hnodup Hbacked] Hremove].
  - destruct (rebuild_names (boot vols)) as (m1 & Hrun & Hnames & Hvolumes).
    unfold pISO_new in Hnew. rewrite Hrun in Hnew. injection Hnew as <-.
    unfold backed. rewrite Hnames, Hvolumes. cbn [boot volumes]. split.
    + eapply sublist_NoDup; [exact Hvols|].
      apply fmap_sublist, sublist_filter.
    + intros name (v & -> & Hv%list_elem_of_filter)%list_elem_of_fmap.
      apply list_elem_of_fmap. exists v. tauto.
  - destruct (add_drive_backed size format m Hbacked) as (d1 & m1 & Hrun & Hnames & ?).
    rewrite Hrun in Hadd. injection Hadd as <- <-. split; [|done].
    rewrite Hnames. apply NoDup_app. split; [done|]. split; [|apply NoDup_singleton].
    intros name Hname ->%list_elem_of_singleton. by apply Hfresh, Hbacked.
  - destruct (remove_drive_backed drive m Hbacked Hnodup) as (m1 & Hrun & ? & ?).
    rewrite Hrun in Hremove. by injection Hremove as <-.
Qed.

(** C1, as the code has it: [add_drive] names the new drive Drive<N>, N
    being the number of live drives plus one, and appends it, so that
    drives added to an empty drive set are Drive1, ..., Drive<k>; and along
    every sequence of [add_drive] and [remove_drive] the backend carries
    out, from the constructor on, no two live drives share a name. *)
Theorem drive_names_by_count :
  (∀ size format m,
      ∃ d m', add_drive size format m = Returned (d, m')
              ∧ m_name d = "Drive" +:+ to_string (N.of_nat (length (m_drives (self m))) + 1)
              ∧ names (self m') = names (self m) ++ [m_name d])
  ∧ (∀ requests m,
      m_drives (self m) = [] →
      ∃ m', add_drives requests m = Returned (tt, m')
            ∧ names (self m') = drive_names (length requests))
  ∧ (∀ m, carried_out m → NoDup (names (self m))).
Proof.
  split_and!.
  - intros size format m.
    destruct (add_drive_names size format m) as (d & m' & ? & ? & ? & _). eauto.
  - intros requests m Hm.
    destruct (add_drives_names requests m 0) as (m' & ? & Hnames).
    { unfold names. by rewrite Hm. }
    exists m'. by rewrite Hnames.
  - intros m Hm. by apply carried_out_invariant.
Qed.

End NamesAgain.

(** ** The compositor and the queries, once more *)

Section RenderAgain.
Context `{!Platform}.

(** X15: [percent_used], [size] and [render] are const: whenever they
    return, the object and the volumes of the backend are as before. *)
Theorem queries_change_nothing m :
  (∀ p m', percent_used m = Returned (p, m') → self m' = self m ∧ volumes m' = volumes m)
  ∧ (∀ n m', size m = Returned (n, m') → self m' = self m ∧ volumes m' = volumes m)
  ∧ (∀ frame m', render m = Returned (frame, m') → self m' = self m ∧ volumes m' = volumes m).
Proof.
  split_and!; intros ? ?.
  - apply constM_percent_used.
  - apply constM_size.
  - apply constM_render.
Qed.

(** X16: when no item reports FULLSCREEN, [render] needs the usage of the
    thin pool: it is fatal when the report has no thin pool, the exception
    of [std::stof] escapes when the usage text is no number or a number out
    of range, each as itself, and a usage that is not finite leaves the
    conversion to [int] undefined. *)
Theorem render_needs_thinpool m :
  forallb (reports_normal (self m)) (m_list_items (self m)) = true →
  (thinpool (volumes m) = None →
     render m = Fatal ["pISO: unable to locate thinpool"])
  ∧ (∀ pool, thinpool (volumes m) = Some pool →
       (stof (data_percent pool) = InvalidArgument →
          render m = Threw "invalid_argument")
       ∧ (stof (data_percent pool) = OutOfRange →
          render m = Threw "out_of_range")
       ∧ (∀ f, stof (data_percent pool) = Parsed f →
            (∀ q, f ≠ Finite q) → render m = Undefined)).
Proof.
  intros Hall. destruct m as [o vs tr]. cbn [self volumes] in *.
  split; [intros Hpool|intros pool Hpool; split_and!; [intros Hused..|intros f Hused Hf]];
    unfold render; mstep; rewrite (render_loop_normal _ _ _ _ _ Hall);
    rewrite percent_used_run; cbn [volumes]; rewrite Hpool; [done|rewrite Hused..];
    [done|done|].
  destruct f as [q| |]; [by destruct (Hf q)|done..].
Qed.

(** X19: [percent_used] reads the first record of the thin pool's name and
    no other: what the report holds after it does not matter, and when the
    usage of that record cannot be read the exception of [std::stof]
    escapes, be it [std::invalid_argument] or [std::out_of_range]. *)
Theorem percent_used_first_record m (before after : list Volume) (pool : Volume) :
  volumes m = before ++ pool :: after →
  (∀ v, v ∈ before → lv_name v ≠ THINPOOL_NAME) →
  lv_name pool = THINPOOL_NAME →
  percent_used m
  = match stof (data_percent pool) with
    | Parsed f => Returned (f, mkMachine (self m) (volumes m) (trace m ++ [EvLvsReport []]))
    | InvalidArgument => Threw "invalid_argument"
    | OutOfRange => Threw "out_of_range"
    end.
Proof.
  intros Hvols Hbefore Hpool. rewrite percent_used_run.
  assert (thinpool (volumes m) = Some pool) as ->; [|done].
  apply thinpool_Some. by exists before, after.
Qed.

Lemma stoull_no_number (s : string) m :
  (∀ c rest, s = String c rest →
     is_space c = false ∧ c ≠ "-"%char ∧ c ≠ "+"%char ∧ digit_value c = None) →
  stoull s m = Threw "invalid_argument".
Proof.
  intros Hs. unfold stoull. destruct s as [|c rest]; [done|].
  destruct (Hs c rest eq_refl) as (Hspace & Hminus & Hplus & Hdigit).
  cbn [skip_spaces]. rewrite Hspace, !decide_False by done.
  cbn [starts_with_digit]. rewrite Hdigit. by rewrite bool_decide_false by (by intros []).
Qed.

Lemma stoull_too_large (n : N) (unit : string) m :
  (2 ^ 64 ≤ n)%N →
  starts_with_digit unit = false →
  stoull (to_string n +:+ unit) m = Threw "out_of_range".
Proof.
  intros Hn Hunit.
  destruct (to_string_head n unit) as (c & rest & d & Hhead & Hc).
  destruct (digit_value_Some_plain _ _ Hc) as (Hspace & Hminus & Hplus).
  unfold stoull. rewrite Hhead. cbn [skip_spaces]. rewrite Hspace.
  rewrite !decide_False by done. cbn [starts_with_digit]. rewrite Hc.
  rewrite bool_decide_true by done.
  rewrite <-Hhead, parse_digits_to_string by done.
  apply N.ltb_ge in Hn. by rewrite Hn.
Qed.

(** X20: [size] reads the decimal number the size of the thin pool starts
    with and ignores what follows it, whatever the unit: it returns the
    number below 2^64; for a larger one [std::out_of_range] escapes, and
    for a size that does not start with a number, the empty one included,
    [std::invalid_argument]. *)
Theorem size_parsing m (pool : Volume) :
  thinpool (volumes m) = Some pool →
  (∀ n unit,
     lv_size pool = to_string n +:+ unit → starts_with_digit unit = false →
     ((n < 2 ^ 64)%N → ∃ m', size m = Returned (n, m'))
     ∧ ((2 ^ 64 ≤ n)%N → size m = Threw "out_of_range"))
  ∧ ((∀ c rest, lv_size pool = String c rest →
        is_space c = false ∧ c ≠ "-"%char ∧ c ≠ "+"%char ∧ digit_value c = None) →
     size m = Threw "invalid_argument").
Proof.
  intros Hpool. rewrite (size_run _ _ Hpool). split.
  - intros n unit -> Hunit. split; intros Hn.
    + eexists. by apply stoull_to_string.
    + by apply stoull_too_large.
  - apply stoull_no_number.
Qed.




End RenderAgain.

(** ** The canvas *)

Section Canvas.
Context `{!Platform}.

Lemma stack_width bitmap b :
  Bitmap.width (stack bitmap b)
  = Bitmap.width bitmap `max` (Bitmap.width b + MENU_LEFT_SPACE).
Proof. unfold stack. cbn. case_decide; cbn; lia. Qed.

Lemma stack_height bitmap b :
  Bitmap.height (stack bitmap b) = Bitmap.height bitmap + Bitmap.height b.
Proof. unfold stack. cbn. case_decide; cbn; lia. Qed.

Ltac bitmap_cases :=
  repeat (progress (unfold Bitmap.get, Bitmap.inside, Bitmap.covers;
                    cbn [Bitmap.width Bitmap.height Bitmap.pixel Bitmap.blit
                         Bitmap.create Bitmap.expand_height Bitmap.expand_width]));
  repeat (case_bool_decide; cbn [andb negb]);
  try done; try lia; try (exfalso; lia).

Lemma get_expand_height bitmap h x y :
  Bitmap.get (Bitmap.expand_height bitmap h) x y = Bitmap.get bitmap x y.
Proof. bitmap_cases. Qed.

Lemma get_expand_width bitmap w x y :
  Bitmap.get (Bitmap.expand_width bitmap w) x y = Bitmap.get bitmap x y.
Proof. bitmap_cases. Qed.

Lemma stack_get_old bitmap b x y :
  y < Bitmap.height bitmap →
  Bitmap.get (stack bitmap b) x y = Bitmap.get bitmap x y.
Proof.
  intros Hy. unfold Bitmap.get at 1, Bitmap.inside.
  rewrite stack_width, stack_height. unfold stack.
  cbn [Bitmap.pixel Bitmap.blit]. unfold Bitmap.covers at 1.
  cbn [Bitmap.width Bitmap.height Bitmap.blit Bitmap.create].
  rewrite (bool_decide_false (Z.of_nat (Bitmap.height bitmap) ≤ _ < _)%Z) by lia.
  rewrite andb_false_r.
  assert (∀ c, Bitmap.get
                 (if decide (Bitmap.width (Bitmap.expand_height bitmap (Bitmap.height b))
                             < Bitmap.width b + MENU_LEFT_SPACE)
                  then Bitmap.expand_width (Bitmap.expand_height bitmap (Bitmap.height b)) c
                  else Bitmap.expand_height bitmap (Bitmap.height b)) x y
               = Bitmap.get bitmap x y) as ->.
  { intros c. case_decide; by rewrite ?get_expand_width, get_expand_height. }
  bitmap_cases.
Qed.

Lemma stack_get_new bitmap b x y :
  x < Bitmap.width b → y < Bitmap.height b →
  Bitmap.get (stack bitmap b) (MENU_LEFT_SPACE + x) (Bitmap.height bitmap + y)
  = Bitmap.pixel b x y.
Proof.
  intros Hx Hy. unfold Bitmap.get at 1, Bitmap.inside.
  rewrite stack_width, stack_height. unfold stack.
  cbn [Bitmap.pixel Bitmap.blit]. unfold Bitmap.covers.
  cbn [Bitmap.width Bitmap.height Bitmap.blit Bitmap.create].
  rewrite !bool_decide_true by lia. cbn [andb]. f_equal; lia.
Qed.

Lemma stack_get_margin bitmap b x y :
  x < MENU_LEFT_SPACE → y < Bitmap.height b →
  Bitmap.get (stack bitmap b) x (Bitmap.height bitmap + y) = false.
Proof.
  intros Hx Hy. unfold Bitmap.get at 1, Bitmap.inside.
  rewrite stack_width, stack_height. unfold stack.
  cbn [Bitmap.pixel Bitmap.blit]. unfold Bitmap.covers.
  cbn [Bitmap.width Bitmap.height Bitmap.blit Bitmap.create].
  rewrite (bool_decide_true (_ ≤ _ < _ + Z.of_nat (Bitmap.height _))%Z) by lia.
  rewrite (bool_decide_false (Z.of_nat MENU_LEFT_SPACE ≤ _ < _)%Z) by lia.
  bitmap_cases.
Qed.

Lemma canvas_cons o p items bitmap :
  canvas o (p :: items) bitmap
  = canvas o items (match deref p o with
                    | Some it => stack bitmap (GUIItem_render it).1
                    | None => bitmap
                    end).
Proof. done. Qed.

Lemma canvas_height o items bitmap :
  Bitmap.height (canvas o items bitmap)
  = Bitmap.height bitmap + sum_list (Bitmap.height <$> item_bitmaps o items).
Proof.
  revert bitmap. induction items as [|p items IH]; intros bitmap; [cbn; lia|].
  rewrite canvas_cons, IH. unfold item_bitmaps. cbn [omap list_omap].
  destruct (deref p o) as [it|]; cbn [fmap option_fmap option_map]; [|done].
  rewrite stack_height. exact (eq_sym (Nat.add_assoc _ _ _)).
Qed.

Lemma canvas_width o items bitmap :
  Bitmap.width (canvas o items bitmap)
  = Bitmap.width bitmap
      `max` max_list ((λ b, Bitmap.width b + MENU_LEFT_SPACE) <$> item_bitmaps o items).
Proof.
  revert bitmap. induction items as [|p items IH]; intros bitmap; [cbn; lia|].
  rewrite canvas_cons, IH. unfold item_bitmaps. cbn [omap list_omap].
  destruct (deref p o) as [it|]; cbn [fmap option_fmap option_map]; [|done].
  rewrite stack_width. exact (eq_sym (Nat.max_assoc _ _ _)).
Qed.

Lemma canvas_get_old o items bitmap x y :
  y < Bitmap.height bitmap →
  Bitmap.get (canvas o items bitmap) x y = Bitmap.get bitmap x y.
Proof.
  revert bitmap. induction items as [|p items IH]; intros bitmap Hy; [done|].
  rewrite canvas_cons. destruct (deref p o) as [it|]; [|by apply IH].
  rewrite IH by (rewrite stack_height; lia). by apply stack_get_old.
Qed.

(** X17: the canvas [render] stacks from items that all report the normal
    mode is as high as the items together and as wide as the widest of
    them with the left margin. *)
Theorem canvas_dimensions m :
  forallb (reports_normal (self m)) (m_list_items (self m)) = true →
  ∃ bitmap m',
    render_loop (m_list_items (self m)) Bitmap.empty m = Returned (Continue bitmap, m')
    ∧ Bitmap.height bitmap
      = sum_list (Bitmap.height <$> item_bitmaps (self m) (m_list_items (self m)))
    ∧ Bitmap.width bitmap
      = max_list ((λ b, Bitmap.width b + MENU_LEFT_SPACE)
                    <$> item_bitmaps (self m) (m_list_items (self m))).
Proof.
  intros Hall. destruct m as [o vs tr]. cbn [self] in *. do 2 eexists.
  split; [by apply render_loop_normal|].
  by rewrite canvas_height, canvas_width.
Qed.

(** X18: on that canvas every item is where the loop put it: its bitmap
    starts to the right of the left margin, which is blank, and below the
    bitmaps of the items before it. *)
Theorem canvas_shows_item m (pre post : list GUIItemPtr) (k : GUIItemPtr)
    (it : GUIItem) (x y : nat) :
  m_list_items (self m) = pre ++ k :: post →
  forallb (reports_normal (self m)) (m_list_items (self m)) = true →
  deref k (self m) = Some it →
  y < Bitmap.height (GUIItem_render it).1 →
  ∃ bitmap m',
    render_loop (m_list_items (self m)) Bitmap.empty m = Returned (Continue bitmap, m')
    ∧ (x < Bitmap.width (GUIItem_render it).1 →
       Bitmap.get bitmap (MENU_LEFT_SPACE + x)
         (sum_list (Bitmap.height <$> item_bitmaps (self m) pre) + y)
       = Bitmap.pixel (GUIItem_render it).1 x y)
    ∧ (x < MENU_LEFT_SPACE →
       Bitmap.get bitmap x (sum_list (Bitmap.height <$> item_bitmaps (self m) pre) + y)
       = false).
Proof.
  intros Hitems Hall Hk Hy. destruct m as [o vs tr]. cbn [self] in *. do 2 eexists.
  split; [by apply render_loop_normal|]. rewrite Hitems.
  unfold canvas. rewrite foldl_app. fold (canvas o pre Bitmap.empty).
  change (foldl ?f ?b (k :: post)) with (canvas o (k :: post) b).
  rewrite canvas_cons, Hk.
  pose proof (canvas_height o pre Bitmap.empty) as Hheight. cbn in Hheight.
  rewrite <-Hheight.
  split; intros Hx; (rewrite canvas_get_old by (rewrite stack_height; lia)).
  - by apply stack_get_new.
  - by apply stack_get_margin.
Qed.

End Canvas.

(** ** The USB gadget *)

Section GadgetProperties.
Context `{!Usbg}.

(** X21: [init_usbgx] returns exactly when the three calls to libusbgx
    succeed, and then it has created the gadget g1 and its configuration
    and has not cleaned up; otherwise it is fatal.  It cleans up exactly
    when it fails after [usbg_init] succeeded, as its last call; it creates
    no configuration unless the gadget was created. *)
Theorem init_usbgx_cleanup :
  (init_usbgx.2 = Returned tt ↔
     usbg_init "/sys/kernel/config" = USBG_SUCCESS
     ∧ usbg_create_gadget "g1" the_gadget_attrs the_gadget_strs = USBG_SUCCESS
     ∧ usbg_create_config 1 "c" the_config_attrs the_config_strs = USBG_SUCCESS)
  ∧ (init_usbgx.2 = Returned tt →
     init_usbgx.1 = [UsbgInit "/sys/kernel/config";
                     UsbgCreateGadget "g1" the_gadget_attrs the_gadget_strs;
                     UsbgCreateConfig 1 "c" the_config_attrs the_config_strs])
  ∧ (init_usbgx.2 ≠ Returned tt → ∃ msg, init_usbgx.2 = Fatal msg)
  ∧ (UsbgCleanup ∈ init_usbgx.1 ↔
       usbg_init "/sys/kernel/config" = USBG_SUCCESS ∧ init_usbgx.2 ≠ Returned tt)
  ∧ (UsbgCleanup ∈ init_usbgx.1 → last init_usbgx.1 = Some UsbgCleanup)
  ∧ (existsb is_create_config init_usbgx.1 = true →
       usbg_create_gadget "g1" the_gadget_attrs the_gadget_strs = USBG_SUCCESS).
Proof.
  unfold init_usbgx.
  change (mk_usbg_gadget_attrs _ _ _ _ _ _ _ _) with the_gadget_attrs.
  change (mk_usbg_gadget_strs _ _ _) with the_gadget_strs.
  change (mk_usbg_config_attrs _ _) with the_config_attrs.
  change (mk_usbg_config_strs _) with the_config_strs.
  repeat case_decide; cbn [fst snd app last existsb is_create_config orb];
    rewrite ?elem_of_cons, ?elem_of_nil;
    split_and!; try done; try (intuition (eauto; congruence)).
Qed.

End GadgetProperties.

(** On a libusbgx that cannot create the gadget, the state is cleaned up
    and no configuration is made. *)
Lemma init_usbgx_cleanup_witness :
  UsbgCleanup ∈ (@init_usbgx demo_usbg).1
  ∧ last (@init_usbgx demo_usbg).1 = Some UsbgCleanup.
Proof.
  destruct (@init_usbgx_cleanup demo_usbg) as (_ & _ & _ & Hiff & Hlast & _).
  assert (UsbgCleanup ∈ (@init_usbgx demo_usbg).1) as Hin.
  { apply Hiff. split; [reflexivity|]. vm_compute. discriminate. }
  exact (conj Hin (Hlast Hin)).
Defined.

(** ** The further properties at work on the concrete platform *)

Lemma add_drive_formats_witness :
  ∃ d m',
    add_drive (H := demo_platform) 1000000000 LINUX demo_start = Returned (d, m')
    ∧ EvRunCommand ["mkfs.ext3 "; "/dev/mapper/loop0p1"] ∈ trace m'.
Proof.
  destruct (add_drive_formats (H := demo_platform) 1000000000 LINUX demo_start
              "/dev/mapper/loop0p1" "/dev/mapper/loop0p2")
    as (d & m' & tail & Hrun & _ & Htrace).
  - apply (bool_decide_unpack _). vm_compute. exact I.
  - right. vm_compute. reflexivity.
  - exists d, m'. split; [exact Hrun|]. rewrite Htrace.
    apply elem_of_app. right. apply elem_of_app. left.
    rewrite !elem_of_cons. tauto.
Defined.

Lemma add_drive_formats_first_line_witness :
  ∃ d m',
    add_drive (H := demo_platform) 1000000000 LINUX demo_start = Returned (d, m')
    ∧ EvRunCommand ["mkfs.ext3 "; "/dev/mapper/loop0p1"] ∈ trace m'.
Proof.
  apply (add_drive_formats_first_line (H := demo_platform) 1000000000 LINUX demo_start
           "/dev/mapper/loop0p1" "/dev/mapper/loop0p2").
  - apply (bool_decide_unpack _). vm_compute. exact I.
  - right. vm_compute. reflexivity.
Defined.

Lemma remove_drive_first_occurrence_witness :
  ∃ i m',
    remove_drive (H := demo_platform) (VirtualDrive_new (H := demo_platform) "Drive2") demo_two_drives
    = Returned (tt, m')
    ∧ names (self m') = delete i (names (self demo_two_drives)).
Proof.
  destruct (remove_drive_first_occurrence (H := demo_platform)
              (VirtualDrive_new (H := demo_platform) "Drive2") demo_two_drives)
    as (i & m' & Hrun & _ & _ & Hnames & _).
  { apply (bool_decide_unpack _). vm_compute. exact I. }
  exists i, m'. exact (conj Hrun Hnames).
Defined.

Lemma remove_drive_twice_witness :
  ∃ m1 m2,
    remove_drive (H := demo_platform) (VirtualDrive_new (H := demo_platform) "Drive2") demo_two_drives
    = Returned (tt, m1)
    ∧ remove_drive (H := demo_platform) (VirtualDrive_new (H := demo_platform) "Drive2") m1 = Returned (tt, m2)
    ∧ self m2 = self m1.
Proof.
  destruct (remove_drive_twice (H := demo_platform)
              (VirtualDrive_new (H := demo_platform) "Drive2") demo_two_drives)
    as (m1 & m2 & Hrun1 & Hrun2 & Hself & _).
  { apply (bool_decide_unpack _). vm_compute. exact I. }
  exists m1, m2. exact (conj Hrun1 (conj Hrun2 Hself)).
Defined.

Lemma add_then_remove_drive_witness :
  ∃ d m1 m2,
    add_drive (H := demo_platform) 1000000000 LINUX demo_start = Returned (d, m1)
    ∧ remove_drive (H := demo_platform) d m1 = Returned (tt, m2)
    ∧ names (self m2) = names (self demo_start).
Proof.
  destruct (add_then_remove_drive (H := demo_platform) 1000000000 LINUX demo_start)
    as (d & m1 & m2 & Hadd & Hremove & Hnames & _).
  { apply (bool_decide_unpack _). vm_compute. exact I. }
  exists d, m1, m2. exact (conj Hadd (conj Hremove Hnames)).
Defined.

Lemma remove_last_keeps_names_dense_witness :
  ∃ m', remove_drive (H := demo_platform) (VirtualDrive_new (H := demo_platform) "Drive2") demo_two_drives
        = Returned (tt, m')
        ∧ names (self m') = drive_names 1.
Proof.
  apply (remove_last_keeps_names_dense (H := demo_platform)
           (VirtualDrive_new (H := demo_platform) "Drive2") demo_two_drives 1); vm_compute; reflexivity.
Defined.

Lemma queries_change_nothing_witness :
  ∃ p m',
    percent_used (H := demo_platform) demo_start = Returned (p, m')
    ∧ self m' = self demo_start ∧ volumes m' = volumes demo_start.
Proof.
  assert (percent_used (H := demo_platform) demo_start
          = Returned (Finite (85 # 2)%Q,
                      mkMachine (self demo_start) (volumes demo_start)
                        (trace demo_start ++ [EvLvsReport []]))) as Hrun.
  { vm_compute. reflexivity. }
  do 2 eexists. split; [exact Hrun|].
  exact (proj1 (queries_change_nothing (H := demo_platform) demo_start) _ _ Hrun).
Defined.

Lemma render_needs_thinpool_witness :
  render (H := demo_platform) demo_no_pool = Fatal ["pISO: unable to locate thinpool"]
  ∧ render (H := demo_platform) demo_out_of_range = Threw "out_of_range".
Proof.
  split.
  - apply (proj1 (render_needs_thinpool (H := demo_platform) demo_no_pool
                    ltac:(vm_compute; reflexivity))).
    vm_compute. reflexivity.
  - apply (proj2 (render_needs_thinpool (H := demo_platform) demo_out_of_range
                    ltac:(vm_compute; reflexivity))
             (mkVolume "thinpool" "twi-aotz--" "1073741824B" "1e40"));
      vm_compute; reflexivity.
Defined.

Lemma canvas_dimensions_witness :
  ∃ bitmap m',
    render_loop (H := demo_platform) (m_list_items (self demo_drive2)) Bitmap.empty demo_drive2
    = Returned (Continue bitmap, m')
    ∧ Bitmap.height bitmap = 24
    ∧ Bitmap.width bitmap = 42.
Proof.
  destruct (canvas_dimensions (H := demo_platform) demo_drive2)
    as (bitmap & m' & Hrun & Hh & Hw); [vm_compute; reflexivity|].
  exists bitmap, m'. split; [exact Hrun|]. rewrite Hh, Hw.
  split; vm_compute; reflexivity.
Defined.

Lemma canvas_shows_item_witness :
  ∃ bitmap m',
    render_loop (H := demo_platform) (m_list_items (self demo_drive2)) Bitmap.empty demo_drive2
    = Returned (Continue bitmap, m')
    ∧ Bitmap.get bitmap 1 11 = false.
Proof.
  destruct (canvas_shows_item (H := demo_platform) demo_drive2
              [PtrDrive 0] [PtrOptions] PtrNewDrive (ItemNewDrive (mkNewDrive false)) 1 3)
    as (bitmap & m' & Hrun & _ & Hmargin);
    [vm_compute; reflexivity..|vm_compute; lia|].
  exists bitmap, m'. split; [exact Hrun|].
  apply Hmargin. vm_compute. lia.
Defined.

Lemma percent_used_first_record_witness :
  percent_used (H := demo_platform)
    (mkMachine (self demo_start) [demo_pool; mkVolume "thinpool" "twi" "1B" "0.00"] [])
  = Returned (Finite (85 # 2)%Q,
              mkMachine (self demo_start)
                [demo_pool; mkVolume "thinpool" "twi" "1B" "0.00"] [EvLvsReport []]).
Proof.
  apply (percent_used_first_record (H := demo_platform)
           (mkMachine (self demo_start)
              [demo_pool; mkVolume "thinpool" "twi" "1B" "0.00"] [])
           [] [mkVolume "thinpool" "twi" "1B" "0.00"] demo_pool);
    [reflexivity|by intros v ?%elem_of_nil|reflexivity].
Defined.

Lemma size_parsing_witness :
  ∃ m', size (H := demo_platform) demo_start = Returned (1073741824%N, m').
Proof.
  destruct (size_parsing (H := demo_platform) demo_start demo_pool) as [Hnumber _];
    [vm_compute; reflexivity|].
  apply (proj1 (Hnumber 1073741824%N "B" ltac:(vm_compute; reflexivity)
                  ltac:(vm_compute; reflexivity))).
  vm_compute. reflexivity.
Defined.


Lemma drive_names_by_count_witness :
  (∃ d m', add_drive (H := demo_platform) 1000000000 LINUX demo_start = Returned (d, m')
           ∧ m_name d = "Drive1"
           ∧ names (self m') = ["Drive1"])
  ∧ (∃ m', add_drives (H := demo_platform) [(1000000000, LINUX); (2000000000, WINDOWS)]%N
             demo_start = Returned (tt, m')
           ∧ names (self m') = ["Drive1"; "Drive2"])
  ∧ (∃ d1 m1 d2 m2 m3,
       add_drive (H := demo_platform) 1000000000 LINUX demo_start = Returned (d1, m1)
       ∧ add_drive (H := demo_platform) 2000000000 WINDOWS m1 = Returned (d2, m2)
       ∧ remove_drive (H := demo_platform) d1 m2 = Returned (tt, m3)
       ∧ NoDup (names (self m3))).
Proof.
  destruct (drive_names_by_count (H := demo_platform)) as (Hadd & Hadds & Hunique).
  split_and!.
  - destruct (Hadd 1000000000%N LINUX demo_start) as (d & m' & Hrun & Hd & Hnames).
    exists d, m'. split; [exact Hrun|]. rewrite Hnames, Hd.
    split; vm_compute; reflexivity.
  - destruct (Hadds [(1000000000, LINUX); (2000000000, WINDOWS)]%N demo_start)
      as (m' & Hrun & Hnames); [reflexivity|].
    exists m'. split; [exact Hrun|]. rewrite Hnames. vm_compute. reflexivity.
  - let r := eval vm_compute in
               (add_drive (H := demo_platform) 1000000000 LINUX demo_start) in
    match r with Returned (?d, ?m) => pose (d1 := d); pose (m1 := m) end.
    let r := eval vm_compute in (add_drive (H := demo_platform) 2000000000 WINDOWS m1) in
    match r with Returned (?d, ?m) => pose (d2 := d); pose (m2 := m) end.
    let r := eval vm_compute in (remove_drive (H := demo_platform) d1 m2) in
    match r with Returned (_, ?m) => pose (m3 := m) end.
    assert (add_drive (H := demo_platform) 1000000000 LINUX demo_start
            = Returned (d1, m1)) as Hrun1 by (vm_compute; reflexivity).
    assert (add_drive (H := demo_platform) 2000000000 WINDOWS m1
            = Returned (d2, m2)) as Hrun2 by (vm_compute; reflexivity).
    assert (remove_drive (H := demo_platform) d1 m2 = Returned (tt, m3)) as Hrun3
      by (vm_compute; reflexivity).
    exists d1, m1, d2, m2, m3.
    refine (conj Hrun1 (conj Hrun2 (conj Hrun3 (Hunique m3 _)))).
    apply (carried_out_remove d1 m2 m3); [|exact Hrun3].
    apply (carried_out_add 2000000000%N WINDOWS m1 d2 m2); [| |exact Hrun2].
    + apply (carried_out_add 1000000000%N LINUX demo_start d1 m1); [| |exact Hrun1].
      * apply (carried_out_new [demo_pool]); [|vm_compute; reflexivity].
        apply (bool_decide_unpack _). vm_compute. exact I.
      * apply (bool_decide_unpack _). vm_compute. exact I.
    + apply (bool_decide_unpack _). vm_compute. exact I.
Defined.

Lemma remove_inner_then_next_name_is_live_witness :
  ∃ m1,
    remove_drive (H := demo_platform) (VirtualDrive_new (H := demo_platform) "Drive1")
      demo_two_drives = Returned (tt, m1)
    ∧ next_name (self m1) = "Drive2"
    ∧ next_name (self m1) ∈ names (self m1).
Proof.
  destruct (remove_inner_then_next_name_is_live (H := demo_platform)
              (VirtualDrive_new (H := demo_platform) "Drive1") demo_two_drives 2 0)
    as (m1 & Hrun & _ & Hnext & Hlive); [vm_compute; reflexivity|lia|vm_compute; reflexivity|].
  exists m1. exact (conj Hrun (conj Hnext Hlive)).
Defined.
